(** * lcm_solution.py: counting sequences with a prescribed least common multiple

    A shallow embedding of [prime_factors], [power_mod] and [count_sequences]
    from [src/lcm_solution.py], followed by the verification of their
    contracts.  Python integers are unbounded, so they are modelled by [Z];
    Python's [%] and [//] are floor operations and coincide with [Z.modulo]
    and [Z.div] whenever the divisor is not zero. *)

From Stdlib Require Import String Ascii.
From Stdlib Require Import ZArith List Lia Permutation Bool Sorted.
Import ListNotations.
Local Open Scope Z_scope.

(** ** Outcomes of a Python call *)

Inductive exn : Type := ZeroDivisionError | KeyError | IndexError.

(** A call either returns a value, raises, or (in the model only) exhausts
    the iteration budget given to one of its [while] loops. *)
Inductive outcome (A : Type) : Type :=
| Returns (a : A)
| Raises (e : exn)
| OutOfFuel.

Arguments Returns {A} a.
Arguments Raises {A} e.
Arguments OutOfFuel {A}.

Definition bind {A B : Type} (c : outcome A) (k : A -> outcome B) : outcome B :=
  match c with
  | Returns a => k a
  | Raises e => Raises e
  | OutOfFuel => OutOfFuel
  end.

Notation "x <- c ;; k" := (bind c (fun x => k))
  (at level 61, c at next level, right associativity).
Notation "' pat <- c ;; k" := (bind c (fun x => match x with pat => k end))
  (at level 61, pat pattern, c at next level, right associativity).

(** ** Loops *)

Section Loops.
Context {St : Type}.

(** [while cond: body].  [iterate k] performs at most [2 ^ k] guarded
    iterations and stops as soon as the condition fails; [while k] reports
    [OutOfFuel] if the condition still holds after that. *)
Fixpoint iterate (cond : St -> bool) (body : St -> outcome St)
         (k : nat) (s : St) : outcome St :=
  match k with
  | O => if cond s then body s else Returns s
  | S k' =>
      s1 <- iterate cond body k' s ;;
      if cond s1 then iterate cond body k' s1 else Returns s1
  end.

Definition while (cond : St -> bool) (body : St -> outcome St)
           (k : nat) (s : St) : outcome St :=
  s' <- iterate cond body k s ;;
  if cond s' then OutOfFuel else Returns s'.

(** [for x in xs: body]. *)
Fixpoint for_each {A : Type} (xs : list A) (body : A -> St -> outcome St)
         (s : St) : outcome St :=
  match xs with
  | [] => Returns s
  | x :: xs' => s' <- body x s ;; for_each xs' body s'
  end.

End Loops.

(** Iteration budget: [2 ^ bits n] exceeds [n]. *)
Definition bits (n : Z) : nat := S (Z.to_nat (Z.log2 n)).

(** [range(a, b)]. *)
Definition range (a b : Z) : list Z :=
  map (fun i => a + Z.of_nat i) (seq 0 (Z.to_nat (b - a))).

(** ** Python containers and builtins used by the program *)

(** A [dict] with integer keys and values; Python dictionaries keep
    insertion order, which fixes the order of [keys()] and [values()]. *)
Definition dict : Type := list (Z * Z).

(** [d.get(k, dflt)] *)
Fixpoint dict_get (d : dict) (k dflt : Z) : Z :=
  match d with
  | [] => dflt
  | (k', v) :: d' => if k' =? k then v else dict_get d' k dflt
  end.

(** [d[k] = v]: an existing key keeps its position, a new key goes last. *)
Fixpoint dict_set (d : dict) (k v : Z) : dict :=
  match d with
  | [] => [(k, v)]
  | (k', v') :: d' =>
      if k' =? k then (k', v) :: d' else (k', v') :: dict_set d' k v
  end.

(** [d[k]] *)
Fixpoint dict_item (d : dict) (k : Z) : outcome Z :=
  match d with
  | [] => Raises KeyError
  | (k', v) :: d' => if k' =? k then Returns v else dict_item d' k
  end.

Definition dict_keys (d : dict) : list Z := map fst d.
Definition dict_values (d : dict) : list Z := map snd d.

(** [l[i]], with Python's negative indices. *)
Definition list_item (l : list Z) (i : Z) : outcome Z :=
  let j := if i <? 0 then i + Z.of_nat (length l) else i in
  if j <? 0 then Raises IndexError
  else match nth_error l (Z.to_nat j) with
       | Some x => Returns x
       | None => Raises IndexError
       end.

(** [a % b] *)
Definition py_mod (a b : Z) : outcome Z :=
  if b =? 0 then Raises ZeroDivisionError else Returns (a mod b).

(** [bin(z)] *)
Fixpoint bin_digits (p : positive) : string :=
  (match p with
  | xH => "1"
  | xO p' => String.append (bin_digits p') "0"
  | xI p' => String.append (bin_digits p') "1"
  end)%string.

Definition bin (z : Z) : string :=
  (match z with
  | Z0 => "0b0"
  | Zpos p => String.append "0b" (bin_digits p)
  | Zneg p => String.append "-0b" (bin_digits p)
  end)%string.

(** [s.count(c)] for a one-character pattern [c]. *)
Fixpoint str_count (s : string) (c : ascii) : Z :=
  match s with
  | EmptyString => 0
  | String a s' => (if Ascii.eqb a c then 1 else 0) + str_count s' c
  end.

(** ** The program *)

Definition MOD : Z := 10 ^ 9 + 7.

(** [prime_factors(n)], lines 34-47.  The loop variable [d] starts at 2 and
    only grows, so neither [n % d] nor [n // d] can raise.

    Inner loop, on the state [(factors, n)]:
    [while n % d == 0: factors[d] = factors.get(d, 0) + 1; n //= d]. *)
Definition divide_cond (d : Z) : dict * Z -> bool :=
  fun '(factors, n) => n mod d =? 0.

Definition divide_body (d : Z) : dict * Z -> outcome (dict * Z) :=
  fun '(factors, n) =>
    let factors := dict_set factors d (dict_get factors d 0 + 1) in
    let n := n / d in
    Returns (factors, n).

(** Outer loop, on the state [(factors, d, n)]:
    [while d * d <= n: <inner loop>; d += 1]. *)
Definition trial_cond : dict * Z * Z -> bool :=
  fun '(factors, d, n) => d * d <=? n.

Definition trial_body : dict * Z * Z -> outcome (dict * Z * Z) :=
  fun '(factors, d, n) =>
    '(factors, n) <- while (divide_cond d) (divide_body d) (bits n) (factors, n) ;;
    let d := d + 1 in
    Returns (factors, d, n).

Definition prime_factors (n : Z) : outcome dict :=
  let factors : dict := [] in
  let d := 2 in
  '(factors, d, n) <- while trial_cond trial_body (bits n) (factors, d, n) ;;
  let factors :=
    if n >? 1 then dict_set factors n (dict_get factors n 0 + 1) else factors in
  Returns factors.

(** [power_mod(base, exp, mod)], lines 49-60.  Loop on the state
    [(result, base, exp)]:
    [while exp > 0: if exp % 2 == 1: result = (result * base) % mod;
                    exp = exp >> 1; base = (base * base) % mod]. *)
Definition square_cond : Z * Z * Z -> bool :=
  fun '(result, base, exp) => exp >? 0.

Definition square_body (mod_ : Z) : Z * Z * Z -> outcome (Z * Z * Z) :=
  fun '(result, base, exp) =>
    result <- (if exp mod 2 =? 1 then py_mod (result * base) mod_
               else Returns result) ;;
    let exp := Z.shiftr exp 1 in
    base <- py_mod (base * base) mod_ ;;
    Returns (result, base, exp).

Definition power_mod (base exp mod_ : Z) : outcome Z :=
  let result := 1 in
  base <- py_mod base mod_ ;;
  '(result, base, exp) <-
    while square_cond (square_body mod_) (bits exp) (result, base, exp) ;;
  Returns result.

(** [count_sequences(n, y)], lines 62-121.

    Body of the inner loop, lines 102-111, on the state
    [reduced_divisor_count]. *)
Definition reduce_body (factors : dict) (primes : list Z) (mask : Z)
  : Z -> Z -> outcome Z :=
  fun i reduced_divisor_count =>
    prime <- list_item primes i ;;
    power <- dict_item factors prime ;;
    if negb (Z.land mask (Z.shiftl 1 i) =? 0)
    then Returns (reduced_divisor_count * Z.max 1 power)
    else Returns (reduced_divisor_count * (power + 1)).

(** Body of the loop over masks, lines 98-119, on the state [result]. *)
Definition mask_body (n : Z) (factors : dict) (primes : list Z)
           (num_primes : Z) : Z -> Z -> outcome Z :=
  fun mask result =>
    let reduced_divisor_count := 1 in
    reduced_divisor_count <-
      for_each (range 0 num_primes) (reduce_body factors primes mask)
               reduced_divisor_count ;;
    sequences <- power_mod reduced_divisor_count n MOD ;;
    if str_count (bin mask) "1"%char mod 2 =? 1
    then Returns ((result - sequences + MOD) mod MOD)
    else Returns ((result + sequences) mod MOD).

(** Lines 85-121: what [count_sequences] does once the guard on
    [num_primes] has let the factorization through. *)
Definition inclusion_exclusion (n : Z) (factors : dict) (primes : list Z)
           (num_primes : Z) : outcome Z :=
  let divisor_count := 1 in
  let divisor_count :=
    fold_left (fun divisor_count power => divisor_count * (power + 1))
              (dict_values factors) divisor_count in
  total_sequences <- power_mod divisor_count n MOD ;;
  let result := total_sequences in
  for_each (range 1 (Z.shiftl 1 num_primes))
           (mask_body n factors primes num_primes) result.

Definition count_sequences (n y : Z) : outcome Z :=
  if y =? 1 then Returns (if n >=? 1 then 1 else 0)
  else
    factors <- prime_factors y ;;
    let primes := dict_keys factors in
    let num_primes := Z.of_nat (length primes) in
    if num_primes >? 20 then Returns 0
    else inclusion_exclusion n factors primes num_primes.

(** ** The batch driver *)

(** How a run of [main] can end badly: [input()] at end of input, a line
    that [int] or the unpacking of its tokens refuses, or an exception
    escaping from [count_sequences]. *)
Inductive driver_exn : Type :=
| EOFError
| ValueError
| CoreRaised (e : exn)
| CoreOutOfFuel.

Section Driver.

(** The text of an input line and the three library operations [main]
    applies to it are parameters; nothing is assumed about them.  In
    particular [py_int] decides by itself which texts denote an integer:
    [None] stands for the [ValueError] that [int] raises on anything else,
    be it a malformed literal or one longer than the interpreter accepts. *)
Variable text : Type.
Variable py_strip : text -> text.
Variable py_split : text -> list text.
Variable py_int : text -> option Z.

(** [main()], lines 123-139.  Standard input is the list of its lines,
    standard output the list of the integers printed so far; what was
    printed before an exception stays printed.

    The loop [for _ in range(T)], lines 130-139, with [remaining]
    iterations to go.  [n, y = map(int, input().strip().split())] raises
    [ValueError] unless there are exactly two tokens and [int] accepts
    both. *)
Fixpoint main_loop (stdin : list text) (remaining : Z) (stdout : list Z)
  : list Z * option driver_exn :=
  if remaining <=? 0 then (stdout, None)
  else
    match stdin with
    | [] => (stdout, Some EOFError)
    | line :: stdin' =>
        match map py_int (py_split (py_strip line)) with
        | [Some n; Some y] =>
            if negb ((1 <=? n) && (n <=? 10 ^ 5) && ((1 <=? y) && (y <=? 10 ^ 9)))
            then main_loop stdin' (remaining - 1) (stdout ++ [0])
            else
              match count_sequences n y with
              | Returns result =>
                  main_loop stdin' (remaining - 1) (stdout ++ [result])
              | Raises e => (stdout, Some (CoreRaised e))
              | OutOfFuel => (stdout, Some CoreOutOfFuel)
              end
        | _ => (stdout, Some ValueError)
        end
    end.

(** [T = int(input().strip())], line 128, then the loop. *)
Definition main (stdin : list text) : list Z * option driver_exn :=
  match stdin with
  | [] => ([], Some EOFError)
  | line :: stdin' =>
      match py_int (py_strip line) with
      | Some T => main_loop stdin' T []
      | None => ([], Some ValueError)
      end
  end.

End Driver.

Arguments main_loop {text} py_strip py_split py_int stdin remaining stdout.
Arguments main {text} py_strip py_split py_int stdin.

(** * Specification vocabulary *)

(** The integer denoted by a prime-to-exponent mapping. *)
Fixpoint prod_pow (fs : dict) : Z :=
  match fs with
  | [] => 1
  | (p, e) :: fs' => p ^ e * prod_pow fs'
  end.

(** A well-formed factorization: pairwise distinct prime keys, positive
    exponents. *)
Definition factorization (fs : dict) : Prop :=
  NoDup (dict_keys fs) /\
  Forall Z.prime (dict_keys fs) /\
  Forall (fun e => 0 < e) (dict_values fs).

(** Least common multiple of a sequence. *)
Fixpoint lcm_list (l : list Z) : Z :=
  match l with
  | [] => 1
  | a :: l' => Z.lcm a (lcm_list l')
  end.

(** The positive divisors of [y], in increasing order, and their number. *)
Definition divisors (y : Z) : list Z :=
  filter (fun d => y mod d =? 0) (range 1 (y + 1)).

Definition num_divisors (y : Z) : Z := Z.of_nat (length (divisors y)).

(** Primality by exhaustive trial, and the distinct prime divisors of [y]. *)
Definition is_prime (p : Z) : bool :=
  (1 <? p) && forallb (fun d => negb (p mod d =? 0)) (range 2 p).

Definition prime_divisors (y : Z) : list Z := filter is_prime (divisors y).

Definition num_distinct_primes (y : Z) : Z :=
  Z.of_nat (length (prime_divisors y)).

(** A length-[n] sequence of positive integers whose lcm is [y]. *)
Definition lcm_sequence (n y : Z) (l : list Z) : Prop :=
  Z.of_nat (length l) = n /\ Forall (fun a => 0 < a) l /\ lcm_list l = y.

(** All sequences of length [n] over the alphabet [U]. *)
Fixpoint sequences (n : nat) (U : list Z) : list (list Z) :=
  match n with
  | O => [[]]
  | S n' => flat_map (fun a => map (cons a) (sequences n' U)) U
  end.

(** An enumeration, without repetition, of the sequences of length [n]
    with lcm [y]: all their members divide [y]. *)
Definition lcm_sequences (n y : Z) : list (list Z) :=
  filter (fun l => lcm_list l =? y) (sequences (Z.to_nat n) (divisors y)).

Definition zsum (l : list Z) : Z := fold_right Z.add 0 l.

(** ** The inclusion-exclusion sum *)

(** Number of set bits. *)
Fixpoint popcount_pos (p : positive) : Z :=
  match p with
  | xH => 1
  | xO p' => popcount_pos p'
  | xI p' => 1 + popcount_pos p'
  end.

Definition popcount (z : Z) : Z :=
  match z with
  | Zpos p => popcount_pos p
  | _ => 0
  end.

(** The reduced divisor count selected by [mask], bit 0 first. *)
Fixpoint reduced (es : list Z) (mask : Z) : Z :=
  match es with
  | [] => 1
  | e :: es' =>
      (if Z.odd mask then Z.max 1 e else e + 1) * reduced es' (Z.div2 mask)
  end.

(** The signed term contributed by [mask], and the closed form of the sum
    of all terms. *)
Definition ie_term (n : Z) (es : list Z) (mask : Z) : Z :=
  (if popcount mask mod 2 =? 1 then -1 else 1) * reduced es mask ^ n.

Fixpoint ie_product (n : Z) (es : list Z) : Z :=
  match es with
  | [] => 1
  | e :: es' => ((e + 1) ^ n - Z.max 1 e ^ n) * ie_product n es'
  end.

(** ** Counting sequences by the prime powers they attain *)

(** Every member of [l] divides [z]. *)
Definition all_divide (z : Z) (l : list Z) : bool :=
  forallb (fun a => z mod a =? 0) l.

(** For each [p] in [P], some member of [l] does not divide [y / p]. *)
Definition attains (y : Z) (P : list Z) (l : list Z) : bool :=
  forallb (fun p => negb (all_divide (y / p) l)) P.

(** The sequences of [n] divisors of [y] that attain the top power of every
    prime of [P]. *)
Definition attaining (n : nat) (y : Z) (P : list Z) : list (list Z) :=
  filter (attains y P) (sequences n (divisors y)).

(** Closed forms: [exact_product] for primes whose top power is attained,
    [free_product] for primes left unconstrained. *)
Fixpoint exact_product (n : Z) (fs : dict) : Z :=
  match fs with
  | [] => 1
  | (_, e) :: fs' => ((e + 1) ^ n - e ^ n) * exact_product n fs'
  end.

Fixpoint free_product (n : Z) (fs : dict) : Z :=
  match fs with
  | [] => 1
  | (_, e) :: fs' => (e + 1) ^ n * free_product n fs'
  end.

(** Prime powers with pairwise distinct primes; exponent 0 is allowed. *)
Definition prime_powers (fs : dict) : Prop :=
  NoDup (dict_keys fs) /\
  Forall Z.prime (dict_keys fs) /\
  Forall (fun e => 0 <= e) (dict_values fs).

(** ** Bounding the number of distinct primes *)

Definition zprod (l : list Z) : Z := fold_right Z.mul 1 l.

(** No prime lies in [lo, t1), (t1, t2), ... for the entries of [table]. *)
Fixpoint prime_gaps (lo : Z) (table : list Z) : bool :=
  match table with
  | [] => true
  | t :: table' =>
      forallb (fun x => negb (is_prime x)) (range lo t)
      && prime_gaps (t + 1) table'
  end.

Definition first_primes : list Z := [2; 3; 5; 7; 11; 13; 17; 19; 23; 29].

(** ** Loop invariants *)

(** [power_mod]: the accumulator times the pending power stays congruent to
    the answer, and the accumulator is reduced once a factor went in. *)
Definition square_inv (base0 exp0 m : Z) : Z * Z * Z -> Prop :=
  fun '(result, base, exp) =>
    0 <= exp /\
    (result * base ^ exp) mod m = base0 ^ exp0 mod m /\
    (result mod m = result \/ (result = 1 /\ 0 < exp)).

(** [n] has no divisor strictly between 1 and [d]. *)
Definition rough (d n : Z) : Prop := forall q, 1 < q < d -> ~ (q | n).

(** [prime_factors], inner loop: [factors] is a factorization of [n0 / n]
    with keys up to [d], and what is left of [n] has no divisor below [d]. *)
Definition divide_inv (n0 d : Z) : dict * Z -> Prop :=
  fun '(factors, n) =>
    1 <= n <= n0 /\ factorization factors /\ prod_pow factors * n = n0 /\
    Forall (fun p => p <= d) (dict_keys factors) /\ rough d n.

(** [prime_factors], outer loop: the same with keys strictly below [d]. *)
Definition trial_inv (n0 : Z) : dict * Z * Z -> Prop :=
  fun '(factors, d, n) =>
    2 <= d /\ 1 <= n <= n0 /\ factorization factors /\
    prod_pow factors * n = n0 /\
    Forall (fun p => p < d) (dict_keys factors) /\ rough d n.

(** ** Vocabulary for the further properties *)

(** Keys in strictly increasing order. *)
Definition ascending_keys (fs : dict) : Prop :=
  StronglySorted Z.lt (dict_keys fs).

(** What the driver ought to print for a test case: the number of
    sequences modulo [MOD] within the bounds of the contest, 0 outside. *)
Definition answer (c : Z * Z) : Z :=
  let (n, y) := c in
  if (1 <=? n) && (n <=? 10 ^ 5) && ((1 <=? y) && (y <=? 10 ^ 9))
  then Z.of_nat (length (lcm_sequences n y)) mod MOD
  else 0.

(** [line] reads as the test case [c]: stripped and split it has exactly two
    tokens, which [int] accepts as the two components of [c]. *)
Definition reads_case {text : Type} (py_strip : text -> text)
           (py_split : text -> list text) (py_int : text -> option Z)
           (line : text) (c : Z * Z) : Prop :=
  map py_int (py_split (py_strip line)) = [Some (fst c); Some (snd c)].

(** An instance of the library operations for running the driver: a line
    is the list of its tokens, a token a one-element list holding the
    integer it denotes. *)
Definition tokens_of (line : list Z) : list (list Z) := map (fun z => [z]) line.

Definition token_value (token : list Z) : option Z :=
  match token with
  | [z] => Some z
  | _ => None
  end.

(** The first 21 primes, each to the power 1: the smallest target that the
    cap of [count_sequences] turns away. *)
Definition first_21_primes : dict :=
  map (fun p => (p, 1))
      [2; 3; 5; 7; 11; 13; 17; 19; 23; 29; 31; 37; 41; 43; 47; 53; 59; 61; 67;
       71; 73].

(** * Verification *)

(** ** Reasoning about loops *)

Lemma bind_returns {A B} (c : outcome A) (k : A -> outcome B) a :
  c = Returns a -> bind c k = k a.
Proof. intros ->. reflexivity. Qed.

Lemma bits_spec n : n < 2 ^ Z.of_nat (bits n).
Proof.
  unfold bits. rewrite Nat2Z.inj_succ, Z2Nat.id by apply Z.log2_nonneg.
  destruct (Z.le_gt_cases n 0) as [Hn | Hn].
  - pose proof (Z.log2_nonneg n).
    assert (0 < 2 ^ Z.succ (Z.log2 n)) by (apply Z.pow_pos_nonneg; lia). lia.
  - apply Z.log2_spec. assumption.
Qed.

Section WhileRule.
Context {St : Type}.
Variable cond : St -> bool.
Variable body : St -> outcome St.
(** A loop invariant and a variant that every iteration decreases. *)
Variable Inv : St -> Prop.
Variable mu : St -> Z.
Hypothesis body_ok : forall s, Inv s -> cond s = true ->
  exists s', body s = Returns s' /\ Inv s' /\ 0 <= mu s' < mu s.

Lemma iterate_progress k s :
  Inv s ->
  exists s', iterate cond body k s = Returns s' /\ Inv s' /\
             (cond s' = false \/ mu s' + 2 ^ Z.of_nat k <= mu s).
Proof.
  revert s. induction k as [|k IH]; intros s HI.
  - cbn [iterate]. destruct (cond s) eqn:Hc.
    + destruct (body_ok s HI Hc) as (s' & Hb & HI' & Hmu).
      exists s'. repeat split; auto. right. simpl. lia.
    + exists s. auto.
  - cbn [iterate]. destruct (IH s HI) as (s1 & H1 & HI1 & Hd1).
    rewrite H1. cbn [bind].
    destruct (cond s1) eqn:Hc1.
    + destruct Hd1 as [Hd1 | Hd1]; [congruence|].
      destruct (IH s1 HI1) as (s2 & H2 & HI2 & Hd2).
      exists s2. repeat split; auto.
      destruct Hd2 as [Hd2 | Hd2]; [left; exact Hd2 | right].
      rewrite Nat2Z.inj_succ, Z.pow_succ_r by lia. lia.
    + exists s1. auto.
Qed.

(** Total correctness: with a budget covering the variant the loop
    returns, in a state where the invariant holds and the condition fails. *)
Lemma while_total k s :
  Inv s -> mu s < 2 ^ Z.of_nat k ->
  exists s', while cond body k s = Returns s' /\ Inv s' /\ cond s' = false.
Proof.
  intros HI Hk. unfold while.
  destruct (iterate_progress k s HI) as (s' & H & HI' & Hd).
  rewrite H. cbn [bind].
  destruct (cond s') eqn:Hc.
  - exfalso. destruct Hd as [Hd | Hd]; [congruence|].
    destruct (body_ok s' HI' Hc) as (s'' & _ & _ & Hmu). lia.
  - exists s'. auto.
Qed.
End WhileRule.

(** ** Modular exponentiation *)

Lemma MOD_eq : MOD = 1000000007.
Proof. reflexivity. Qed.

Lemma py_mod_returns a m : m <> 0 -> py_mod a m = Returns (a mod m).
Proof.
  intros Hm. unfold py_mod. destruct (Z.eqb_spec m 0); [contradiction | reflexivity].
Qed.

Lemma power_mod_zero_modulus base exp : power_mod base exp 0 = Raises ZeroDivisionError.
Proof. reflexivity. Qed.

Section PowerMod.
Variables base0 exp0 m : Z.
Hypothesis m_nonzero : m <> 0.

Lemma square_body_ok s :
  square_inv base0 exp0 m s -> square_cond s = true ->
  exists s', square_body m s = Returns s' /\ square_inv base0 exp0 m s' /\
             0 <= snd s' < snd s.
Proof.
  destruct s as [[result base] exp]. unfold square_inv, square_cond, square_body.
  intros (He & Hcong & Hred) Hc. apply Z.gtb_lt in Hc.
  rewrite (py_mod_returns (base * base)) by assumption.
  assert (Hsh : Z.shiftr exp 1 = exp / 2)
    by (rewrite Z.shiftr_div_pow2 by lia; reflexivity).
  assert (Hdm : exp = 2 * (exp / 2) + exp mod 2) by (apply Z.div_mod; lia).
  assert (Hr : 0 <= exp mod 2 < 2) by (apply Z.mod_pos_bound; lia).
  assert (Hq : 0 <= exp / 2) by (apply Z.div_pos; lia).
  assert (Hsq : forall r, (r * ((base * base) mod m) ^ (exp / 2)) mod m
                          = (r * base ^ (2 * (exp / 2))) mod m).
  { intros r. rewrite <- Z.mul_mod_idemp_r, Z.mod_pow_l, Z.mul_mod_idemp_r by assumption.
    rewrite Z.pow_mul_r, Z.pow_2_r by lia. reflexivity. }
  assert (Hpow : base ^ exp = base ^ (2 * (exp / 2)) * base ^ (exp mod 2))
    by (rewrite <- Z.pow_add_r by lia; f_equal; lia).
  destruct (Z.eqb_spec (exp mod 2) 1) as [Hodd | Heven].
  - rewrite py_mod_returns by assumption. cbn [bind].
    eexists. split; [reflexivity|]. rewrite Hsh. cbn [snd].
    split; [|lia]. split; [assumption|]. split.
    + rewrite Hsq, Z.mul_mod_idemp_l, <- Hcong by assumption.
      rewrite Hpow, Hodd, Z.pow_1_r. f_equal. ring.
    + left. apply Z.mod_mod. assumption.
  - cbn [bind]. eexists. split; [reflexivity|]. rewrite Hsh. cbn [snd].
    split; [|lia]. split; [assumption|]. split.
    + rewrite Hsq, <- Hcong, Hpow.
      replace (exp mod 2) with 0 by lia. rewrite Z.pow_0_r, Z.mul_1_r. reflexivity.
    + destruct Hred as [Hred | [Hred _]]; [left; assumption | right; lia].
Qed.

Lemma power_mod_pos :
  0 < exp0 -> power_mod base0 exp0 m = Returns (base0 ^ exp0 mod m).
Proof.
  intros Hexp. unfold power_mod.
  rewrite py_mod_returns by assumption. cbn [bind].
  destruct (while_total square_cond (square_body m) (square_inv base0 exp0 m)
              (fun s => snd s) square_body_ok
              (bits exp0) (1, base0 mod m, exp0)) as ([[r b] e] & Hw & HI & Hc).
  - unfold square_inv. split; [lia|]. split; [|right; lia].
    rewrite Z.mul_1_l. apply Z.mod_pow_l.
  - cbn [snd]. apply bits_spec.
  - rewrite Hw. cbn [bind].
    unfold square_inv in HI. unfold square_cond in Hc.
    destruct HI as (He & Hcong & Hred).
    assert (e = 0) by (destruct (Z.gtb_spec e 0); [discriminate | lia]). subst e.
    rewrite Z.pow_0_r, Z.mul_1_r in Hcong.
    destruct Hred as [Hred | [_ Habs]]; [|lia].
    rewrite <- Hcong, Hred. reflexivity.
Qed.

(** With an exponent that is not positive the loop body never runs. *)
Lemma power_mod_nonpos : exp0 <= 0 -> power_mod base0 exp0 m = Returns 1.
Proof.
  intros Hexp. unfold power_mod.
  rewrite py_mod_returns by assumption. cbn [bind].
  assert (Hc : square_cond (1, base0 mod m, exp0) = false).
  { unfold square_cond. destruct (Z.gtb_spec exp0 0); [lia | reflexivity]. }
  assert (Hit : forall k, iterate square_cond (square_body m) k (1, base0 mod m, exp0)
                          = Returns (1, base0 mod m, exp0)).
  { induction k as [|k IH]; cbn [iterate].
    - rewrite Hc. reflexivity.
    - rewrite IH. cbn [bind]. rewrite Hc. reflexivity. }
  unfold while. rewrite Hit. cbn [bind]. rewrite Hc. reflexivity.
Qed.

End PowerMod.

(** ** Dictionaries *)

Lemma length_dict_keys d : length (dict_keys d) = length d.
Proof. apply length_map. Qed.

Lemma length_dict_values d : length (dict_values d) = length d.
Proof. apply length_map. Qed.

Lemma dict_keys_app d1 d2 : dict_keys (d1 ++ d2) = dict_keys d1 ++ dict_keys d2.
Proof. apply map_app. Qed.

Lemma prod_pow_app d1 d2 : prod_pow (d1 ++ d2) = prod_pow d1 * prod_pow d2.
Proof.
  induction d1 as [|[p e] d1 IH]; cbn [prod_pow app].
  - destruct (prod_pow d2); reflexivity.
  - rewrite IH. ring.
Qed.

(** [factors[k] = factors.get(k, 0) + 1] multiplies the denoted integer by
    [k], adds [k] to the keys and keeps the exponents positive. *)
Lemma dict_bump (f : dict) (k : Z) :
  Forall (fun e => 0 < e) (dict_values f) ->
  let f' := dict_set f k (dict_get f k 0 + 1) in
  prod_pow f' = prod_pow f * k /\
  Forall (fun e => 0 < e) (dict_values f') /\
  (forall x, In x (dict_keys f') <-> In x (dict_keys f) \/ x = k) /\
  (NoDup (dict_keys f) -> NoDup (dict_keys f')).
Proof.
  induction f as [|[k' v'] f IH]; intros Hpos; cbn zeta.
  - cbn. repeat split.
    + destruct k; reflexivity || (cbn; lia).
    + constructor; [lia | constructor].
    + intros [H | []]; right; congruence.
    + intros [[] | ->]; left; reflexivity.
    + intros _. constructor; [intros [] | constructor].
  - cbn [dict_values map snd] in Hpos. inversion Hpos as [|? ? Hv' Hpos']; subst.
    cbn [dict_set dict_get].
    destruct (Z.eqb_spec k' k) as [-> | Hne].
    + cbn [prod_pow dict_values dict_keys map fst snd]. repeat split.
      * rewrite Z.pow_add_r, Z.pow_1_r by lia. ring.
      * constructor; [lia | assumption].
      * intros H; left; exact H.
      * intros [H | ->]; [exact H | left; reflexivity].
      * auto.
    + destruct (IH Hpos') as (Hprod & Hval & Hkeys & Hnd).
      cbn [prod_pow dict_values dict_keys map fst snd]. repeat split.
      * fold (dict_keys f). rewrite Hprod. ring.
      * constructor; assumption.
      * intros [H | H]; [left; left; exact H|].
        apply Hkeys in H. destruct H; [left; right; assumption | right; assumption].
      * intros [[H | H] | H]; [left; exact H | right; apply Hkeys; left; exact H
                              | right; apply Hkeys; right; exact H].
      * intros Hn. inversion Hn as [|? ? Hnotin Hn']; subst.
        constructor; [|apply Hnd; assumption].
        intros Hin. apply Hkeys in Hin. destruct Hin; [contradiction | congruence].
Qed.

(** ** Trial division *)

Lemma rough_divide d n m : rough d n -> (m | n) -> rough d m.
Proof.
  intros Hr Hm q Hq Hqm. apply (Hr q Hq). eapply Z.divide_trans; eassumption.
Qed.

(** The least divisor found by trial division is prime. *)
Lemma rough_prime d n : 1 < d -> rough d n -> (d | n) -> Z.prime d.
Proof.
  intros Hd Hr Hdn. split; [assumption|].
  intros q Hq Hqd. apply (Hr q Hq). eapply Z.divide_trans; eassumption.
Qed.

(** What remains below [d * d] with no divisor below [d] is prime. *)
Lemma rough_small_prime d n :
  0 <= d -> 1 < n -> rough d n -> n < d * d -> Z.prime n.
Proof.
  intros Hd Hn Hr Hlt. split; [assumption|].
  intros q Hq [r Hr'].
  assert (Hrpos : 1 < r) by nia.
  assert (Hrn : r < n) by nia.
  assert (Hqd : d <= q).
  { destruct (Z.le_gt_cases d q) as [H | H]; [assumption|].
    exfalso. apply (Hr q); [lia | exists r; assumption]. }
  assert (Hrd : d <= r).
  { destruct (Z.le_gt_cases d r) as [H | H]; [assumption|].
    exfalso. apply (Hr r); [lia | exists q; lia]. }
  nia.
Qed.

Lemma divide_body_ok n0 d s :
  2 <= d ->
  divide_inv n0 d s -> divide_cond d s = true ->
  exists s', divide_body d s = Returns s' /\ divide_inv n0 d s' /\
             0 <= snd s' < snd s.
Proof.
  destruct s as [f n]. unfold divide_inv, divide_cond, divide_body.
  intros Hd (Hn & (Hnd & Hpr & Hpos) & Hprod & Hle & Hrough) Hc.
  apply Z.eqb_eq in Hc. apply Z.mod_divide in Hc; [|lia].
  assert (Hdp : Z.prime d) by (eapply rough_prime; eauto; lia).
  destruct Hc as [q Hq].
  assert (Hqd : n / d = q) by (subst n; apply Z.div_mul; lia).
  assert (Hqpos : 1 <= q) by nia.
  destruct (dict_bump f d Hpos) as (Hprod' & Hpos' & Hkeys & Hnd').
  eexists. split; [reflexivity|]. cbn [snd]. rewrite Hqd.
  split; [|nia]. split; [nia|]. split; [|split; [|split]].
  - split; [auto|]. split; [|assumption].
    apply Forall_forall. intros x Hx. apply Hkeys in Hx.
    destruct Hx as [Hx | ->]; [|assumption].
    rewrite Forall_forall in Hpr. auto.
  - rewrite Hprod'. subst n. rewrite <- Hprod. ring.
  - apply Forall_forall. intros x Hx. apply Hkeys in Hx.
    destruct Hx as [Hx | ->]; [|lia].
    rewrite Forall_forall in Hle. auto.
  - apply (rough_divide d n); [assumption|]. exists d. lia.
Qed.

Lemma trial_body_ok n0 s :
  trial_inv n0 s -> trial_cond s = true ->
  exists s', trial_body s = Returns s' /\ trial_inv n0 s' /\
             0 <= n0 - snd (fst s') < n0 - snd (fst s).
Proof.
  destruct s as [[f d] n]. unfold trial_inv, trial_cond, trial_body.
  intros (Hd & Hn & Hfact & Hprod & Hlt & Hrough) Hc.
  apply Z.leb_le in Hc.
  destruct (while_total (divide_cond d) (divide_body d) (divide_inv n0 d)
              (fun s => snd s) (fun s => divide_body_ok n0 d s Hd)
              (bits n) (f, n)) as ([f' n'] & Hw & HI & Hc').
  - unfold divide_inv.
    split; [lia | split; [assumption | split; [assumption | split; [|assumption]]]].
    eapply Forall_impl; [|exact Hlt]. cbn beta. intros; lia.
  - cbn [snd]. apply bits_spec.
  - rewrite Hw. cbn [bind]. eexists. split; [reflexivity|]. cbn [fst snd].
    unfold divide_inv in HI. unfold divide_cond in Hc'.
    destruct HI as (Hn' & Hfact' & Hprod' & Hle' & Hrough').
    split; [|nia].
    split; [lia|]. split; [assumption|]. split; [assumption|].
    split; [assumption|]. split.
    + eapply Forall_impl; [|exact Hle']. cbn beta. intros; lia.
    + intros q Hq Hqn.
      destruct (Z.eq_dec q d) as [-> | Hne].
      * apply Z.mod_divide in Hqn; [|lia]. rewrite Hqn in Hc'. discriminate.
      * apply (Hrough' q); [lia | assumption].
Qed.

Lemma prime_factors_returns n :
  1 <= n ->
  exists fs, prime_factors n = Returns fs /\ factorization fs /\ prod_pow fs = n.
Proof.
  intros Hn. unfold prime_factors. cbv zeta.
  destruct (while_total trial_cond trial_body (trial_inv n)
              (fun s => n - snd (fst s)) (trial_body_ok n)
              (bits n) ([], 2, n)) as ([[f d] m] & Hw & HI & Hc).
  - unfold trial_inv. repeat split; try lia; try constructor.
    + cbn. destruct n; reflexivity.
    + intros q Hq. lia.
  - cbn [fst snd]. pose proof (bits_spec n). lia.
  - erewrite bind_returns by exact Hw. eexists. split; [reflexivity|].
    unfold trial_inv in HI. unfold trial_cond in Hc.
    destruct HI as (Hd & Hm & (Hnd & Hpr & Hpos) & Hprod & Hlt & Hrough).
    apply Z.leb_gt in Hc.
    destruct (Z.gtb_spec m 1) as [Hm1 | Hm1].
    + assert (Hmp : Z.prime m) by (apply (rough_small_prime d); auto; lia).
      assert (Hdm : d <= m).
      { destruct (Z.le_gt_cases d m) as [H | H]; [assumption|].
        exfalso. apply (Hrough m); [lia | apply Z.divide_refl]. }
      destruct (dict_bump f m Hpos) as (Hprod' & Hpos' & Hkeys & Hnd').
      split; [split; [auto | split; [|assumption]]|].
      * apply Forall_forall. intros x Hx. apply Hkeys in Hx.
        destruct Hx as [Hx | ->]; [|assumption].
        rewrite Forall_forall in Hpr. auto.
      * rewrite Hprod'. assumption.
    + assert (m = 1) by lia. subst m.
      split; [repeat split; assumption | lia].
Qed.

(** ** Ranges and sums *)

Lemma range_nil a b : b <= a -> range a b = [].
Proof.
  intros H. unfold range. replace (Z.to_nat (b - a)) with O by lia. reflexivity.
Qed.

Lemma range_cons a b : a < b -> range a b = a :: range (a + 1) b.
Proof.
  intros H. unfold range.
  replace (Z.to_nat (b - a)) with (S (Z.to_nat (b - (a + 1)))) by lia.
  cbn [seq map]. f_equal; [lia|].
  rewrite <- seq_shift, map_map. apply map_ext. intros i. lia.
Qed.

Lemma range_snoc a b : a <= b -> range a (b + 1) = range a b ++ [b].
Proof.
  intros H. unfold range.
  replace (Z.to_nat (b + 1 - a)) with (S (Z.to_nat (b - a))) by lia.
  rewrite seq_S, map_app. cbn [map]. do 2 f_equal. lia.
Qed.

Lemma in_range a b x : In x (range a b) <-> a <= x < b.
Proof.
  unfold range. rewrite in_map_iff. split.
  - intros (i & <- & Hi). apply in_seq in Hi. lia.
  - intros H. exists (Z.to_nat (x - a)). split; [lia|]. apply in_seq. lia.
Qed.

Lemma NoDup_range a b : NoDup (range a b).
Proof.
  unfold range. apply Finite.Injective_map_NoDup; [|apply seq_NoDup].
  intros i j. lia.
Qed.

Lemma length_range a b : length (range a b) = Z.to_nat (b - a).
Proof. unfold range. rewrite length_map, length_seq. reflexivity. Qed.

Lemma zsum_app l1 l2 : zsum (l1 ++ l2) = zsum l1 + zsum l2.
Proof.
  induction l1 as [|x l1 IH]; cbn [app zsum fold_right]; [reflexivity|].
  fold (zsum (l1 ++ l2)). fold (zsum l1). lia.
Qed.

Lemma zsum_cons x l : zsum (x :: l) = x + zsum l.
Proof. reflexivity. Qed.

(** Splitting a sum over [0 .. 2N-1] by the lowest bit of the index. *)
Lemma zsum_even_odd (t : Z -> Z) (N : nat) :
  zsum (map t (range 0 (2 * Z.of_nat N)))
  = zsum (map (fun m => t (2 * m) + t (2 * m + 1)) (range 0 (Z.of_nat N))).
Proof.
  induction N as [|N IH]; [reflexivity|].
  replace (2 * Z.of_nat (S N)) with (2 * Z.of_nat N + 1 + 1) by lia.
  replace (Z.of_nat (S N)) with (Z.of_nat N + 1) by lia.
  rewrite !range_snoc by lia. rewrite !map_app, !zsum_app, IH.
  cbn [map zsum fold_right]. lia.
Qed.

(** ** Bit masks *)

Lemma popcount_double m : popcount (2 * m) = popcount m.
Proof. destruct m; reflexivity. Qed.

Lemma popcount_double_succ m : 0 <= m -> popcount (2 * m + 1) = popcount m + 1.
Proof.
  destruct m as [|p|p]; intros H; [reflexivity | | lia].
  change (2 * Z.pos p + 1) with (Z.pos p~1). cbn [popcount popcount_pos]. lia.
Qed.

Lemma str_count_append s t c :
  str_count (String.append s t) c = str_count s c + str_count t c.
Proof.
  induction s as [|a s IH]; cbn [String.append str_count]; [reflexivity|].
  rewrite IH. ring.
Qed.

Lemma str_count_bin_digits p : str_count (bin_digits p) "1"%char = popcount_pos p.
Proof.
  induction p as [p IH | p IH |]; cbn [bin_digits popcount_pos];
    rewrite ?str_count_append, ?IH.
  - change (str_count "1" "1"%char) with 1. lia.
  - change (str_count "0" "1"%char) with 0. lia.
  - reflexivity.
Qed.

(** [bin(mask).count('1')] is the number of set bits of [mask]. *)
Lemma str_count_bin mask : 0 <= mask -> str_count (bin mask) "1"%char = popcount mask.
Proof.
  destruct mask as [|p|p]; intros H; [reflexivity | | lia].
  cbn [bin popcount]. rewrite str_count_append, str_count_bin_digits.
  change (str_count "0b" "1"%char) with 0. lia.
Qed.

(** [mask & (1 << i)] is non-zero exactly when bit [i] of [mask] is set. *)
Lemma land_shiftl_bit mask i :
  0 <= i -> (Z.land mask (Z.shiftl 1 i) =? 0) = negb (Z.testbit mask i).
Proof.
  intros Hi. rewrite Z.shiftl_1_l.
  destruct (Z.testbit mask i) eqn:Hb; cbn [negb].
  - apply Z.eqb_neq. intros H0.
    assert (Ht : Z.testbit (Z.land mask (2 ^ i)) i = true)
      by (rewrite Z.land_spec, Hb, Z.pow2_bits_true by assumption; reflexivity).
    rewrite H0, Z.bits_0 in Ht. discriminate.
  - apply Z.eqb_eq. apply Z.bits_inj'. intros j Hj.
    rewrite Z.land_spec, Z.bits_0, Z.pow2_bits_eqb by assumption.
    destruct (Z.eqb_spec i j) as [-> | Hne];
      [rewrite Hb | rewrite andb_false_r]; reflexivity.
Qed.

Lemma div2_double m : Z.div2 (2 * m) = m.
Proof. rewrite Z.div2_div, Z.mul_comm. apply Z.div_mul. lia. Qed.

Lemma div2_double_succ m : Z.div2 (2 * m + 1) = m.
Proof.
  rewrite Z.div2_div. symmetry.
  apply (Z.div_unique_pos (2 * m + 1) 2 m 1); lia.
Qed.

Lemma odd_double m : Z.odd (2 * m) = false.
Proof. rewrite <- (Z.add_0_l (2 * m)), Z.odd_add_mul_2. reflexivity. Qed.

Lemma odd_double_succ m : Z.odd (2 * m + 1) = true.
Proof. apply Z.odd_odd. Qed.

(** ** The inclusion-exclusion sum in closed form *)

Lemma zsum_map_scale (c : Z) (f : Z -> Z) l :
  zsum (map (fun x => c * f x) l) = c * zsum (map f l).
Proof.
  induction l as [|x l IH]; cbn [map]; rewrite ?zsum_cons; [cbn; lia|].
  rewrite IH. ring.
Qed.

Lemma ie_term_split n e es m :
  0 <= n -> 0 <= m ->
  ie_term n (e :: es) (2 * m) + ie_term n (e :: es) (2 * m + 1)
  = ((e + 1) ^ n - Z.max 1 e ^ n) * ie_term n es m.
Proof.
  intros Hn Hm. unfold ie_term. cbn [reduced].
  rewrite odd_double, odd_double_succ, div2_double, div2_double_succ.
  rewrite popcount_double, popcount_double_succ by assumption.
  rewrite !Z.pow_mul_l.
  assert (Hpar : 0 <= popcount m mod 2 < 2) by (apply Z.mod_pos_bound; lia).
  assert (H : popcount m mod 2 = 0 \/ popcount m mod 2 = 1) by lia.
  rewrite (Z.add_mod (popcount m)) by lia. change (1 mod 2) with 1.
  destruct H as [-> | ->].
  - change ((0 + 1) mod 2 =? 1) with true. change (0 =? 1) with false.
    cbv iota. ring.
  - change ((1 + 1) mod 2 =? 1) with false. change (1 =? 1) with true.
    cbv iota. ring.
Qed.

Lemma ie_sum n es :
  0 <= n ->
  zsum (map (ie_term n es) (range 0 (Z.of_nat (2 ^ length es))))
  = ie_product n es.
Proof.
  intros Hn. induction es as [|e es IH].
  - cbn. unfold ie_term. cbn. rewrite Z.pow_1_l by assumption. reflexivity.
  - cbn [length ie_product]. rewrite Nat.pow_succ_r', Nat2Z.inj_mul.
    change (Z.of_nat 2) with 2. rewrite zsum_even_odd.
    rewrite <- IH, <- zsum_map_scale. f_equal.
    apply map_ext_in. intros m Hm. apply in_range in Hm.
    apply ie_term_split; lia.
Qed.

(** ** The loops of [count_sequences] *)

Lemma power_mod_MOD x n : 0 <= n -> power_mod x n MOD = Returns (x ^ n mod MOD).
Proof.
  intros Hn. destruct (Z.eq_dec n 0) as [-> | Hne].
  - rewrite power_mod_nonpos by (rewrite ?MOD_eq; lia). reflexivity.
  - apply power_mod_pos; rewrite ?MOD_eq; lia.
Qed.

Lemma list_item_middle (pre : list Z) x rest :
  list_item (pre ++ x :: rest) (Z.of_nat (length pre)) = Returns x.
Proof.
  assert (H : (Z.of_nat (length pre) <? 0) = false) by (apply Z.ltb_ge; lia).
  unfold list_item. cbv zeta. rewrite !H.
  rewrite Nat2Z.id, nth_error_app2, Nat.sub_diag by lia. reflexivity.
Qed.

Lemma dict_item_middle (pre : dict) p e suf :
  ~ In p (dict_keys pre) -> dict_item (pre ++ (p, e) :: suf) p = Returns e.
Proof.
  induction pre as [|[k v] pre IH]; intros Hnotin; cbn [app dict_item].
  - rewrite Z.eqb_refl. reflexivity.
  - cbn [dict_keys map fst] in Hnotin.
    destruct (Z.eqb_spec k p) as [-> | Hne]; [exfalso; apply Hnotin; left; reflexivity|].
    apply IH. intros Hin. apply Hnotin. right. exact Hin.
Qed.

(** The inner loop multiplies the accumulator by the factors selected by
    the bits of [mask], lowest bit first. *)
Lemma reduce_loop (fs : dict) mask :
  NoDup (dict_keys fs) ->
  forall suf pre acc,
    fs = pre ++ suf ->
    for_each (range (Z.of_nat (length pre)) (Z.of_nat (length fs)))
             (reduce_body fs (dict_keys fs) mask) acc
    = Returns (acc * reduced (dict_values suf)
                             (Z.shiftr mask (Z.of_nat (length pre)))).
Proof.
  intros Hnd. induction suf as [|[p e] suf IH]; intros pre acc Hfs.
  - rewrite app_nil_r in Hfs. subst pre. rewrite range_nil by lia.
    cbn [for_each dict_values map reduced]. f_equal. ring.
  - assert (Hlen : Z.of_nat (length fs) = Z.of_nat (length pre) + 1 + Z.of_nat (length suf)).
    { subst fs. rewrite length_app. cbn [length]. lia. }
    rewrite range_cons by lia. cbn [for_each].
    assert (Hnotin : ~ In p (dict_keys pre)).
    { subst fs. rewrite dict_keys_app in Hnd. cbn [dict_keys map fst] in Hnd.
      apply NoDup_remove_2 in Hnd. intros Hin. apply Hnd.
      apply in_or_app. left. exact Hin. }
    assert (Hbody : reduce_body fs (dict_keys fs) mask (Z.of_nat (length pre)) acc
                    = Returns (acc * (if Z.odd (Z.shiftr mask (Z.of_nat (length pre)))
                                      then Z.max 1 e else e + 1))).
    { unfold reduce_body.
      replace (list_item (dict_keys fs) (Z.of_nat (length pre))) with (Returns p).
      2:{ subst fs. rewrite dict_keys_app. cbn [dict_keys map fst].
          rewrite <- (length_map fst pre). symmetry. apply list_item_middle. }
      cbn [bind]. subst fs. rewrite dict_item_middle by assumption. cbn [bind].
      rewrite land_shiftl_bit, negb_involutive, Z.testbit_odd by lia.
      destruct (Z.odd _); reflexivity. }
    rewrite Hbody. cbn [bind].
    specialize (IH (pre ++ [(p, e)])).
    rewrite length_app in IH. cbn [length] in IH.
    replace (Z.of_nat (length pre + 1)) with (Z.of_nat (length pre) + 1) in IH by lia.
    rewrite IH by (rewrite <- app_assoc; exact Hfs).
    cbn [dict_values map snd reduced]. fold (dict_values suf).
    rewrite Z.div2_spec, Z.shiftr_shiftr by lia. f_equal. ring.
Qed.

Lemma fold_divisor_count es acc :
  fold_left (fun divisor_count power => divisor_count * (power + 1)) es acc
  = acc * reduced es 0.
Proof.
  revert acc. induction es as [|e es IH]; intros acc; cbn [fold_left reduced].
  - ring.
  - rewrite IH. cbn [Z.odd Z.div2]. ring.
Qed.

Section MaskLoop.
Variables (n : Z) (fs : dict).
Hypothesis n_nonneg : 0 <= n.
Hypothesis keys_distinct : NoDup (dict_keys fs).

(** One iteration of the loop over masks: [sequences] is a residue, which
    is subtracted (after adding [MOD]) or added according to the parity of
    the number of set bits of [mask]. *)
Lemma mask_body_step mask result :
  0 <= mask ->
  mask_body n fs (dict_keys fs) (Z.of_nat (length (dict_keys fs))) mask result
  = let sequences := reduced (dict_values fs) mask ^ n mod MOD in
    Returns (if popcount mask mod 2 =? 1
             then (result - sequences + MOD) mod MOD
             else (result + sequences) mod MOD).
Proof.
  intros Hmask. unfold mask_body. cbv zeta.
  rewrite length_dict_keys.
  change (range 0 (Z.of_nat (length fs)))
    with (range (Z.of_nat (length (@nil (Z * Z)))) (Z.of_nat (length fs))).
  rewrite (reduce_loop fs mask keys_distinct fs [] 1 eq_refl).
  cbn [bind length]. change (Z.of_nat 0) with 0. rewrite Z.shiftr_0_r, Z.mul_1_l.
  rewrite power_mod_MOD by assumption. cbn [bind].
  rewrite str_count_bin by assumption.
  destruct (popcount mask mod 2 =? 1); reflexivity.
Qed.

(** It adds the signed term of [mask] to the running result. *)
Lemma mask_body_returns mask result :
  0 <= mask ->
  mask_body n fs (dict_keys fs) (Z.of_nat (length (dict_keys fs))) mask result
  = Returns ((result + ie_term n (dict_values fs) mask) mod MOD).
Proof.
  intros Hmask. rewrite mask_body_step by assumption. cbv zeta. unfold ie_term.
  assert (HM : MOD <> 0) by (rewrite MOD_eq; lia).
  destruct (popcount mask mod 2 =? 1); f_equal.
  - replace (result - reduced (dict_values fs) mask ^ n mod MOD + MOD)
      with (result - reduced (dict_values fs) mask ^ n mod MOD + 1 * MOD) by ring.
    rewrite Z.mod_add, Zminus_mod_idemp_r by assumption. f_equal; ring.
  - rewrite Z.add_mod_idemp_r by assumption. f_equal; ring.
Qed.

Lemma mask_loop_returns masks result :
  Forall (fun mask => 0 <= mask) masks ->
  result mod MOD = result ->
  for_each masks (mask_body n fs (dict_keys fs) (Z.of_nat (length (dict_keys fs))))
           result
  = Returns ((result + zsum (map (ie_term n (dict_values fs)) masks)) mod MOD).
Proof.
  assert (HM : MOD <> 0) by (rewrite MOD_eq; lia).
  intros Hmasks. revert result.
  induction Hmasks as [|mask masks Hmask _ IH]; intros result Hres;
    cbn [for_each map].
  - change (zsum []) with 0. rewrite Z.add_0_r, Hres. reflexivity.
  - rewrite mask_body_returns by assumption. cbn [bind].
    rewrite IH by (apply Z.mod_mod; assumption).
    rewrite Z.add_mod_idemp_l, zsum_cons by assumption. do 2 f_equal; ring.
Qed.

(** The whole computation returns the closed form of the alternating sum. *)
Lemma inclusion_exclusion_returns :
  inclusion_exclusion n fs (dict_keys fs) (Z.of_nat (length (dict_keys fs)))
  = Returns (ie_product n (dict_values fs) mod MOD).
Proof.
  assert (HM : MOD <> 0) by (rewrite MOD_eq; lia).
  unfold inclusion_exclusion. cbv zeta.
  rewrite power_mod_MOD by assumption. cbn [bind].
  rewrite mask_loop_returns.
  - f_equal. rewrite Z.add_mod_idemp_l by assumption.
    rewrite <- (ie_sum n (dict_values fs)) by assumption.
    rewrite length_dict_keys, length_dict_values.
    rewrite Z.shiftl_1_l, Nat2Z.inj_pow. change (Z.of_nat 2) with 2.
    assert (Hpos : 0 < 2 ^ Z.of_nat (length fs)) by (apply Z.pow_pos_nonneg; lia).
    rewrite (range_cons 0) by assumption. cbn [map]. rewrite zsum_cons.
    change (0 + 1) with 1. rewrite fold_divisor_count.
    unfold ie_term at 2. cbn [popcount].
    change (0 mod 2 =? 1) with false. cbv iota.
    rewrite !Z.mul_1_l. reflexivity.
  - apply Forall_forall. intros mask Hmask. apply in_range in Hmask. lia.
  - apply Z.mod_mod. assumption.
Qed.

End MaskLoop.

(** ** Divisors and primes *)

Lemma in_divisors y d : In d (divisors y) <-> 0 < y /\ 0 < d /\ (d | y).
Proof.
  unfold divisors. rewrite filter_In, in_range, Z.eqb_eq. split.
  - intros [Hd Hm]. apply Z.mod_divide in Hm; [|lia]. repeat split; try lia; assumption.
  - intros (Hy & Hd & Hdiv). split.
    + pose proof (Z.divide_pos_le d y Hy Hdiv). lia.
    + apply Z.mod_divide; [lia | assumption].
Qed.

Lemma NoDup_divisors y : NoDup (divisors y).
Proof. apply NoDup_filter, NoDup_range. Qed.

Lemma is_prime_iff p : is_prime p = true <-> Z.prime p.
Proof.
  unfold is_prime. rewrite andb_true_iff, Z.ltb_lt, forallb_forall.
  unfold Z.prime. split; intros [Hp H]; (split; [assumption|]).
  - intros n Hn Hdiv. specialize (H n). rewrite in_range in H.
    apply Z.mod_divide in Hdiv; [|lia].
    rewrite Hdiv in H. specialize (H ltac:(lia)). discriminate.
  - intros d Hd. apply in_range in Hd. apply negb_true_iff, Z.eqb_neq.
    intros Hm. apply Z.mod_divide in Hm; [|lia]. apply (H d); [lia | assumption].
Qed.

Lemma prime_gt_1 p : Z.prime p -> 1 < p.
Proof. intros [H _]. exact H. Qed.

Lemma in_prime_divisors y p :
  In p (prime_divisors y) <-> 0 < y /\ Z.prime p /\ (p | y).
Proof.
  unfold prime_divisors. rewrite filter_In, in_divisors, is_prime_iff. split.
  - tauto.
  - intros (Hy & Hp & Hdiv). pose proof (prime_gt_1 p Hp).
    split; [split; [|split] |]; try assumption. lia.
Qed.

Lemma NoDup_prime_divisors y : NoDup (prime_divisors y).
Proof. apply NoDup_filter, NoDup_divisors. Qed.

Lemma prime_pos p : Z.prime p -> 0 < p.
Proof. intros H. pose proof (prime_gt_1 p H). lia. Qed.

Lemma prod_pow_pos fs :
  Forall Z.prime (dict_keys fs) -> Forall (fun e => 0 <= e) (dict_values fs) ->
  0 < prod_pow fs.
Proof.
  induction fs as [|[p e] fs IH];
    cbn [dict_keys dict_values map fst snd prod_pow]; intros Hk Hv.
  - lia.
  - inversion Hk as [|? ? Hp Hk']; inversion Hv as [|? ? He Hv']; subst.
    apply Z.mul_pos_pos; [|apply IH; assumption].
    apply Z.pow_pos_nonneg; [apply prime_pos|]; assumption.
Qed.

Lemma positive_nonneg (l : list Z) :
  Forall (fun e => 0 < e) l -> Forall (fun e => 0 <= e) l.
Proof. apply Forall_impl. intros; lia. Qed.

(** A prime dividing a product of prime powers is one of the primes. *)
Lemma prime_divides_prod_pow p fs :
  Z.prime p -> Forall Z.prime (dict_keys fs) ->
  Forall (fun e => 0 <= e) (dict_values fs) ->
  (p | prod_pow fs) -> In p (dict_keys fs).
Proof.
  intros Hp. induction fs as [|[q e] fs IH];
    cbn [dict_keys dict_values map fst snd prod_pow]; intros Hk Hv Hdiv.
  - exfalso. pose proof (prime_gt_1 p Hp).
    apply Z.divide_1_r_nonneg in Hdiv; lia.
  - inversion Hk as [|? ? Hq Hk']; inversion Hv as [|? ? He Hv']; subst.
    apply Z.divide_prime_mul in Hdiv; [|assumption].
    destruct Hdiv as [Hdiv | Hdiv].
    + left. symmetry. apply (Z.divide_prime_pp p q e); assumption.
    + right. apply IH; assumption.
Qed.

Lemma key_divides_prod_pow p fs :
  Forall (fun e => 0 < e) (dict_values fs) ->
  In p (dict_keys fs) -> (p | prod_pow fs).
Proof.
  induction fs as [|[q e] fs IH];
    cbn [dict_keys dict_values map fst snd prod_pow]; intros Hv Hin.
  - destruct Hin.
  - inversion Hv as [|? ? He Hv']; subst. destruct Hin as [-> | Hin].
    + apply Z.divide_mul_l. apply Z.divide_pow_same_r. lia.
    + apply Z.divide_mul_r. apply IH; assumption.
Qed.

(** The keys of a factorization of [y] are exactly the primes dividing [y]. *)
Lemma factorization_keys fs p :
  factorization fs -> (In p (dict_keys fs) <-> Z.prime p /\ (p | prod_pow fs)).
Proof.
  intros (Hnd & Hk & Hv). split.
  - intros Hin. split.
    + rewrite Forall_forall in Hk. auto.
    + apply key_divides_prod_pow; assumption.
  - intros [Hp Hdiv].
    apply prime_divides_prod_pow; auto using positive_nonneg.
Qed.

Lemma factorization_pos fs : factorization fs -> 0 < prod_pow fs.
Proof.
  intros (_ & Hk & Hv). apply prod_pow_pos; auto using positive_nonneg.
Qed.

Lemma num_distinct_primes_factorization fs :
  factorization fs ->
  num_distinct_primes (prod_pow fs) = Z.of_nat (length (dict_keys fs)).
Proof.
  intros Hf. unfold num_distinct_primes. f_equal.
  apply Permutation_length, NoDup_Permutation.
  - apply NoDup_prime_divisors.
  - apply Hf.
  - intros p. rewrite in_prime_divisors, factorization_keys by assumption.
    pose proof (factorization_pos fs Hf). tauto.
Qed.

(** ** Finite enumerations *)

Lemma NoDup_flat_map {A B : Type} (f : A -> list B) (l : list A) :
  NoDup l ->
  (forall a, In a l -> NoDup (f a)) ->
  (forall a b x, In a l -> In b l -> In x (f a) -> In x (f b) -> a = b) ->
  NoDup (flat_map f l).
Proof.
  induction l as [|a l IH]; intros Hnd Hf Hdisj; cbn [flat_map].
  - constructor.
  - inversion Hnd as [|? ? Hnotin Hnd']; subst.
    apply NoDup_app.
    + apply Hf. left. reflexivity.
    + apply IH; [assumption | |].
      * intros b Hb. apply Hf. right. exact Hb.
      * intros b c x Hb Hc. apply Hdisj; right; assumption.
    + intros x Hx Hx'. apply in_flat_map in Hx'. destruct Hx' as (b & Hb & Hxb).
      apply Hnotin. rewrite (Hdisj a b x); auto; [left; reflexivity | right; exact Hb].
Qed.

(** Two enumerations without repetition of the same set have the same size. *)
Lemma same_members_length {A : Type} (l l' : list A) :
  NoDup l -> NoDup l' -> (forall x, In x l <-> In x l') -> length l = length l'.
Proof. intros H H' Hiff. apply Permutation_length, NoDup_Permutation; assumption. Qed.

Lemma in_sequences n U l :
  In l (sequences n U) <-> length l = n /\ Forall (fun a => In a U) l.
Proof.
  revert l. induction n as [|n IH]; intros l; cbn [sequences].
  - split.
    + intros [<- | []]. split; [reflexivity | constructor].
    + intros [Hlen _]. left. symmetry. apply length_zero_iff_nil. exact Hlen.
  - rewrite in_flat_map. split.
    + intros (a & Ha & Hl). apply in_map_iff in Hl. destruct Hl as (l' & <- & Hl').
      apply IH in Hl'. destruct Hl' as [Hlen Hall]. cbn [length].
      split; [congruence | constructor; assumption].
    + intros [Hlen Hall]. destruct l as [|a l]; [discriminate|].
      inversion Hall as [|? ? Ha Hall']; subst.
      exists a. split; [assumption|]. apply in_map. apply IH.
      cbn [length] in Hlen. split; [congruence | assumption].
Qed.

Lemma NoDup_sequences n U : NoDup U -> NoDup (sequences n U).
Proof.
  intros HU. induction n as [|n IH]; cbn [sequences].
  - constructor; [intros [] | constructor].
  - apply NoDup_flat_map; [assumption | |].
    + intros a _. apply Finite.Injective_map_NoDup; [|assumption].
      intros l l' H. congruence.
    + intros a b x _ _ Ha Hb.
      apply in_map_iff in Ha. destruct Ha as (l & <- & _).
      apply in_map_iff in Hb. destruct Hb as (l' & Heq & _). congruence.
Qed.

Lemma length_sequences n U :
  Z.of_nat (length (sequences n U)) = Z.of_nat (length U) ^ Z.of_nat n.
Proof.
  induction n as [|n IH]; cbn [sequences].
  - reflexivity.
  - rewrite (flat_map_constant_length (c := length (sequences n U))).
    + rewrite Nat2Z.inj_mul, IH, Nat2Z.inj_succ, Z.pow_succ_r by lia. reflexivity.
    + intros a _. apply length_map.
Qed.

(** Splitting an enumeration by a test. *)
Lemma filter_split_length {A : Type} (f g : A -> bool) (l : list A) :
  length (filter f l)
  = (length (filter (fun x => f x && g x) l)
     + length (filter (fun x => f x && negb (g x)) l))%nat.
Proof.
  induction l as [|x l IH]; cbn [filter]; [reflexivity|].
  destruct (f x), (g x); cbn [andb negb length]; lia.
Qed.

Lemma zsum_map_add {A : Type} (f g : A -> Z) l :
  zsum (map (fun x => f x + g x) l) = zsum (map f l) + zsum (map g l).
Proof.
  induction l as [|x l IH]; cbn [map]; rewrite ?zsum_cons; [reflexivity|].
  rewrite IH. ring.
Qed.

Lemma zsum_indicator (v : Z) keys :
  NoDup keys -> In v keys ->
  zsum (map (fun k => if v =? k then 1 else 0) keys) = 1.
Proof.
  induction keys as [|k keys IH]; intros Hnd Hin; [destruct Hin|].
  inversion Hnd as [|? ? Hnotin Hnd']; subst. cbn [map]. rewrite zsum_cons.
  destruct (Z.eqb_spec v k) as [-> | Hne].
  - assert (Hz : zsum (map (fun k0 => if k =? k0 then 1 else 0) keys) = 0).
    { clear IH Hnd Hnd' Hin. induction keys as [|k0 keys IHk]; [reflexivity|].
      cbn [map]. rewrite zsum_cons, IHk by (intros H; apply Hnotin; right; exact H).
      destruct (Z.eqb_spec k k0) as [-> | _]; [|reflexivity].
      exfalso. apply Hnotin. left. reflexivity. }
    rewrite Hz. reflexivity.
  - destruct Hin as [Hin | Hin]; [congruence|]. rewrite IH by assumption. reflexivity.
Qed.

(** Partitioning an enumeration by the value of a key. *)
Lemma partition_length {A : Type} (key : A -> Z) (keys : list Z) (l : list A) :
  NoDup keys -> Forall (fun x => In (key x) keys) l ->
  Z.of_nat (length l)
  = zsum (map (fun k => Z.of_nat (length (filter (fun x => key x =? k) l))) keys).
Proof.
  intros Hnd Hall. induction Hall as [|x l Hx _ IH].
  - cbn [filter length]. clear Hnd.
    induction keys as [|k keys IHk]; [reflexivity|].
    cbn [map]. rewrite zsum_cons, <- IHk. reflexivity.
  - rewrite (map_ext _ (fun k => (if key x =? k then 1 else 0)
                                 + Z.of_nat (length (filter (fun x0 => key x0 =? k) l)))).
    + rewrite zsum_map_add, zsum_indicator, <- IH by assumption.
      cbn [length]. lia.
    + intros k. cbn [filter]. destruct (key x =? k); cbn [length]; lia.
Qed.

(** ** Least common multiples *)

Lemma lcm_list_divide l z : (lcm_list l | z) <-> Forall (fun a => (a | z)) l.
Proof.
  induction l as [|a l IH]; cbn [lcm_list].
  - split; [constructor | intros _; apply Z.divide_1_l].
  - rewrite Z.lcm_divide_iff, IH. split.
    + intros [Ha Hl]. constructor; assumption.
    + intros H. inversion H; subst. split; assumption.
Qed.

Lemma lcm_list_pos l : Forall (fun a => 0 < a) l -> 0 < lcm_list l.
Proof.
  induction 1 as [|a l Ha _ IH]; cbn [lcm_list]; [lia|].
  pose proof (Z.lcm_nonneg a (lcm_list l)).
  assert (Z.lcm a (lcm_list l) <> 0) by (rewrite Z.lcm_eq_0; lia). lia.
Qed.

Lemma all_divide_spec z l :
  Forall (fun a => 0 < a) l ->
  (all_divide z l = true <-> Forall (fun a => (a | z)) l).
Proof.
  intros Hpos. unfold all_divide. rewrite forallb_forall, Forall_forall.
  rewrite Forall_forall in Hpos.
  split; intros H a Ha; specialize (H a Ha); specialize (Hpos a Ha).
  - apply Z.eqb_eq in H. apply Z.mod_divide in H; [assumption | lia].
  - apply Z.eqb_eq. apply Z.mod_divide; [lia | assumption].
Qed.

(** ** Divisibility by distinct primes *)

Lemma distinct_primes_coprime p q : Z.prime p -> Z.prime q -> p <> q -> Z.gcd p q = 1.
Proof.
  intros Hp Hq Hne. apply Z.coprime_prime_l; [assumption|].
  intros Hdiv. apply Hne. apply Z.divide_prime_prime; assumption.
Qed.

(** A number prime to [q] that divides [q ^ e * r] divides [r]. *)
Lemma divide_cancel_prime_power q e t r :
  Z.prime q -> 0 <= e -> ~ (q | t) -> (t | q ^ e * r) -> (t | r).
Proof.
  intros Hq He Hnot. revert r. pattern e. apply natlike_ind; [| |exact He].
  - intros r Hdiv. rewrite Z.pow_0_r, Z.mul_1_l in Hdiv. exact Hdiv.
  - intros x Hx IH r Hdiv. apply IH.
    rewrite Z.pow_succ_r, <- Z.mul_assoc in Hdiv by assumption.
    apply (Z.gauss t q); [exact Hdiv|].
    rewrite Z.gcd_comm. apply Z.coprime_prime_l; assumption.
Qed.

(** A non-trivial divisor of a product of prime powers is a multiple of one
    of the primes. *)
Lemma divisor_has_key fs t :
  prime_powers fs -> 1 < t -> (t | prod_pow fs) ->
  exists p, In p (dict_keys fs) /\ (p | t).
Proof.
  intros (Hnd & Hk & Hv). revert Hnd Hk Hv.
  induction fs as [|[q e] fs IH];
    cbn [dict_keys dict_values map fst snd prod_pow]; intros Hnd Hk Hv Ht Hdiv.
  - apply Z.divide_1_r_nonneg in Hdiv; lia.
  - inversion Hnd as [|? ? _ Hnd']; inversion Hk as [|? ? Hq Hk'];
      inversion Hv as [|? ? He Hv']; subst.
    destruct (Z.eq_dec (t mod q) 0) as [Hm | Hm].
    + exists q. split; [left; reflexivity|].
      apply Z.mod_divide; [pose proof (prime_gt_1 q Hq); lia | assumption].
    + assert (Hnot : ~ (q | t)).
      { intros H. apply Hm. apply Z.mod_divide; [|assumption].
        pose proof (prime_gt_1 q Hq); lia. }
      destruct (IH Hnd' Hk' Hv' Ht) as (p & Hp & Hpt).
      * eapply divide_cancel_prime_power; eassumption.
      * exists p. split; [right; assumption | assumption].
Qed.

(** For distinct primes [p], [q] dividing [y]: among the divisors of
    [y / p], those of [y / q] are those of [y / p / q]. *)
Lemma divide_both_quotients p q y a :
  Z.prime p -> Z.prime q -> p <> q -> 0 < y -> (p | y) -> (q | y) ->
  (a | y / p) -> ((a | y / q) <-> (a | y / p / q)).
Proof.
  intros Hp Hq Hne Hy [u Hu] Hqy Ha.
  pose proof (prime_gt_1 p Hp) as Hp1. pose proof (prime_gt_1 q Hq) as Hq1.
  rewrite Hu in Hqy, Ha |- *. rewrite Z.div_mul in Ha |- * by lia.
  assert (Hqu : (q | u)).
  { apply Z.divide_prime_mul in Hqy; [|assumption].
    destruct Hqy as [H | H]; [assumption|].
    exfalso. apply Hne. symmetry. apply Z.divide_prime_prime; assumption. }
  destruct Hqu as [w Hw]. rewrite Hw in Ha |- *. rewrite Z.div_mul by lia.
  replace (w * q * p) with (w * p * q) by ring. rewrite Z.div_mul by lia.
  assert (Hwpos : 0 <= w) by nia.
  split.
  - intros Hawp.
    assert (Hg : (a | Z.gcd (p * w) (q * w))).
    { apply Z.gcd_greatest; rewrite Z.mul_comm; assumption. }
    rewrite Z.gcd_mul_mono_r_nonneg in Hg by assumption.
    rewrite distinct_primes_coprime, Z.mul_1_l in Hg by assumption. exact Hg.
  - intros Haw. apply Z.divide_mul_l. exact Haw.
Qed.

(** ** The number of divisors *)

(** A divisor of [p ^ e * m] is a power of [p] times a divisor of [m]. *)
Lemma prime_power_divisor_split p m e x :
  Z.prime p -> 0 <= e -> 0 < x -> (x | p ^ e * m) ->
  exists j d, 0 <= j <= e /\ 0 < d /\ (d | m) /\ x = p ^ j * d.
Proof.
  intros Hp He. pose proof (prime_gt_1 p Hp) as Hp1.
  revert x. pattern e. apply natlike_ind; [| |exact He].
  - intros x Hx Hdiv. rewrite Z.pow_0_r, Z.mul_1_l in Hdiv.
    exists 0, x. rewrite Z.pow_0_r. repeat split; try lia; assumption.
  - intros k Hk IH x Hx Hdiv.
    rewrite Z.pow_succ_r, <- Z.mul_assoc in Hdiv by assumption.
    destruct (Z.eq_dec (x mod p) 0) as [Hm | Hm].
    + apply Z.mod_divide in Hm; [|lia]. destruct Hm as [x' Hx'].
      assert (Hx'pos : 0 < x') by nia.
      destruct (IH x' Hx'pos) as (j & d & Hj & Hd & Hdm & Heq).
      { apply (Z.mul_divide_cancel_l _ _ p); [lia|].
        rewrite (Z.mul_comm p x'), <- Hx'. exact Hdiv. }
      exists (Z.succ j), d. repeat split; try lia; try assumption.
      rewrite Z.pow_succ_r by lia. rewrite Hx', Heq. ring.
    + assert (Hnot : ~ (p | x)).
      { intros H. apply Hm. apply Z.mod_divide; [lia | assumption]. }
      destruct (IH x Hx) as (j & d & Hj & Hd & Hdm & Heq).
      { apply (Z.gauss x p); [exact Hdiv|].
        rewrite Z.gcd_comm. apply Z.coprime_prime_l; assumption. }
      exists j, d. repeat split; try lia; assumption.
Qed.

(** Distinct powers of [p] times numbers prime to [p] are distinct. *)
Lemma prime_power_times_lt p j j' d d' :
  Z.prime p -> 0 <= j < j' -> p ^ j * d = p ^ j' * d' -> (p | d).
Proof.
  intros Hp Hj Heq. pose proof (prime_gt_1 p Hp) as Hp1.
  replace j' with (j + Z.succ (j' - j - 1)) in Heq by lia.
  rewrite Z.pow_add_r, Z.pow_succ_r, <- Z.mul_assoc in Heq by lia.
  apply Z.mul_reg_l in Heq; [|apply Z.pow_nonzero; lia].
  exists (p ^ (j' - j - 1) * d'). rewrite Heq. ring.
Qed.

Lemma num_divisors_prime_power p e m :
  Z.prime p -> 0 <= e -> 0 < m -> ~ (p | m) ->
  num_divisors (p ^ e * m) = (e + 1) * num_divisors m.
Proof.
  intros Hp He Hm Hnot. pose proof (prime_gt_1 p Hp) as Hp1.
  assert (Hpow : forall j, 0 <= j -> 0 < p ^ j) by (intros; apply Z.pow_pos_nonneg; lia).
  unfold num_divisors.
  rewrite (same_members_length (divisors (p ^ e * m))
             (flat_map (fun j => map (fun d => p ^ j * d) (divisors m))
                       (range 0 (e + 1)))).
  - rewrite (flat_map_constant_length (c := length (divisors m)))
      by (intros; apply length_map).
    rewrite Nat2Z.inj_mul, length_range. f_equal. lia.
  - apply NoDup_divisors.
  - apply NoDup_flat_map.
    + apply NoDup_range.
    + intros j Hj. apply in_range in Hj.
      apply Finite.Injective_map_NoDup; [|apply NoDup_divisors].
      intros d d' Heq. apply Z.mul_reg_l in Heq; [assumption|].
      specialize (Hpow j). lia.
    + intros j j' x Hj Hj' Hx Hx'. apply in_range in Hj, Hj'.
      apply in_map_iff in Hx, Hx'.
      destruct Hx as (d & Hd & Hdin), Hx' as (d' & Hd' & Hdin').
      apply in_divisors in Hdin, Hdin'.
      destruct (Z.lt_trichotomy j j') as [Hlt | [Heq | Hgt]]; [|assumption|].
      * exfalso. apply Hnot. apply (Z.divide_trans _ d); [|apply Hdin].
        apply (prime_power_times_lt p j j' d d'); [assumption | lia | congruence].
      * exfalso. apply Hnot. apply (Z.divide_trans _ d'); [|apply Hdin'].
        apply (prime_power_times_lt p j' j d' d); [assumption | lia | congruence].
  - intros x. rewrite in_divisors, in_flat_map. split.
    + intros (Hy & Hx & Hdiv).
      destruct (prime_power_divisor_split p m e x Hp He Hx Hdiv)
        as (j & d & Hj & Hd & Hdm & Heq).
      exists j. split; [apply in_range; lia|].
      apply in_map_iff. exists d. split; [congruence|].
      apply in_divisors. auto.
    + intros (j & Hj & Hx). apply in_range in Hj.
      apply in_map_iff in Hx. destruct Hx as (d & <- & Hd).
      apply in_divisors in Hd. destruct Hd as (_ & Hd & Hdm).
      specialize (Hpow j ltac:(lia)) as Hpj. specialize (Hpow e He) as Hpe.
      split; [nia|]. split; [nia|].
      destruct Hdm as [c Hc].
      exists (p ^ (e - j) * c). rewrite Hc.
      replace e with (e - j + j) at 1 by lia. rewrite Z.pow_add_r by lia. ring.
Qed.

Lemma prime_powers_tail q e fs :
  prime_powers ((q, e) :: fs) ->
  Z.prime q /\ 0 <= e /\ ~ In q (dict_keys fs) /\ prime_powers fs.
Proof.
  unfold prime_powers, dict_keys, dict_values. cbn [map fst snd].
  intros (Hnd & Hk & Hv).
  inversion Hnd; inversion Hk; inversion Hv; subst.
  split; [assumption | split; [assumption | split; [assumption|]]].
  split; [assumption | split; assumption].
Qed.

Lemma prime_powers_pos fs : prime_powers fs -> 0 < prod_pow fs.
Proof. intros (_ & Hk & Hv). apply prod_pow_pos; assumption. Qed.

Lemma fresh_prime_not_divide q fs :
  Z.prime q -> prime_powers fs -> ~ In q (dict_keys fs) -> ~ (q | prod_pow fs).
Proof.
  intros Hq (_ & Hk & Hv) Hnotin Hdiv. apply Hnotin.
  apply prime_divides_prod_pow; assumption.
Qed.

(** The number of sequences of [n] divisors of a product of prime powers. *)
Lemma num_divisors_prod_pow n fs :
  0 <= n -> prime_powers fs ->
  num_divisors (prod_pow fs) ^ n = free_product n fs.
Proof.
  intros Hn. induction fs as [|[q e] fs IH]; intros Hfs;
    cbn [prod_pow free_product].
  - change (num_divisors 1) with 1. apply Z.pow_1_l. assumption.
  - apply prime_powers_tail in Hfs. destruct Hfs as (Hq & He & Hnotin & Hfs).
    rewrite num_divisors_prime_power; try assumption.
    + rewrite Z.pow_mul_l, IH by assumption. reflexivity.
    + apply prime_powers_pos. assumption.
    + apply fresh_prime_not_divide; assumption.
Qed.

(** ** Sequences attaining the top prime powers *)

Lemma forallb_ext_in {A : Type} (f g : A -> bool) (l : list A) :
  (forall x, In x l -> f x = g x) -> forallb f l = forallb g l.
Proof.
  induction l as [|x l IH]; intros H; cbn [forallb]; [reflexivity|].
  rewrite (H x), IH; [reflexivity | | left; reflexivity].
  intros y Hy. apply H. right. exact Hy.
Qed.

Lemma attains_spec y P l :
  attains y P l = true <-> forall p, In p P -> all_divide (y / p) l = false.
Proof.
  unfold attains. rewrite forallb_forall.
  split; intros H p Hp; specialize (H p Hp).
  - apply negb_true_iff. exact H.
  - apply negb_true_iff. exact H.
Qed.

(** With no prime constrained every sequence of divisors qualifies. *)
Lemma length_attaining_nil n y :
  Z.of_nat (length (attaining n y [])) = num_divisors y ^ Z.of_nat n.
Proof.
  unfold attaining, num_divisors. rewrite <- length_sequences. f_equal. f_equal.
  apply forallb_filter_id. apply forallb_forall. reflexivity.
Qed.

(** Among sequences of divisors of [y / p], attaining the top powers with
    respect to [y] and with respect to [y / p] mean the same. *)
Lemma attains_quotient y p P l :
  0 < y -> Z.prime p -> (p | y) -> ~ In p P ->
  Forall (fun q => Z.prime q /\ (q | y)) P ->
  Forall (fun a => 0 < a /\ (a | y / p)) l ->
  attains y P l = attains (y / p) P l.
Proof.
  intros Hy Hp Hpy Hnotin HP Hl. unfold attains.
  apply forallb_ext_in. intros q Hq. f_equal.
  rewrite Forall_forall in HP. destruct (HP q Hq) as [Hqp Hqy].
  unfold all_divide. apply forallb_ext_in. intros a Ha.
  rewrite Forall_forall in Hl. destruct (Hl a Ha) as [Hapos Hadiv].
  apply eq_true_iff_eq. rewrite !Z.eqb_eq, !Z.mod_divide by lia.
  apply divide_both_quotients; try assumption. congruence.
Qed.

Lemma quotient_pos y p : 0 < y -> Z.prime p -> (p | y) -> 0 < y / p < y.
Proof.
  intros Hy Hp [u Hu]. pose proof (prime_gt_1 p Hp).
  subst y. rewrite Z.div_mul by lia. nia.
Qed.

Lemma quotient_divides y p : (p | y) -> p <> 0 -> (y / p | y).
Proof.
  intros [u ->] Hp. rewrite Z.div_mul by assumption. exists p. ring.
Qed.

(** Inclusion-exclusion, one prime at a time: the sequences attaining the
    top powers of [P] either attain that of [p] as well, or consist of
    divisors of [y / p]. *)
Lemma attaining_step n y p P :
  0 < y -> Z.prime p -> (p | y) -> ~ In p P ->
  Forall (fun q => Z.prime q /\ (q | y)) P ->
  length (attaining n y P)
  = (length (attaining n y (p :: P)) + length (attaining n (y / p) P))%nat.
Proof.
  intros Hy Hp Hpy Hnotin HP. unfold attaining.
  pose proof (quotient_pos y p Hy Hp Hpy) as Hq.
  rewrite (filter_split_length (attains y P)
             (fun l => negb (all_divide (y / p) l))).
  f_equal.
  - f_equal. apply filter_ext. intros l. cbn [attains forallb].
    apply andb_comm.
  - apply same_members_length; try (apply NoDup_filter, NoDup_sequences, NoDup_divisors).
    intros l. rewrite !filter_In, !in_sequences, andb_true_iff, negb_involutive.
    split.
    + intros [[Hlen Hall] [Hatt Hdiv]].
      assert (Hpos : Forall (fun a => 0 < a) l).
      { eapply Forall_impl; [|exact Hall]. cbn beta. intros a Ha.
        apply in_divisors in Ha. tauto. }
      apply all_divide_spec in Hdiv; [|assumption].
      assert (Hl : Forall (fun a => 0 < a /\ (a | y / p)) l)
        by (apply Forall_and; assumption).
      split; [split; [assumption|] |].
      * eapply Forall_impl; [|exact Hl]. cbn beta. intros a Ha.
        apply in_divisors. split; [lia | exact Ha].
      * rewrite <- (attains_quotient y p P l); assumption.
    + intros [[Hlen Hall] Hatt].
      assert (Hl : Forall (fun a => 0 < a /\ (a | y / p)) l).
      { eapply Forall_impl; [|exact Hall]. cbn beta. intros a Ha.
        apply in_divisors in Ha. tauto. }
      destruct (Forall_and_inv _ _ Hl) as [Hpos Hdiv].
      split; [split; [assumption|] | split].
      * eapply Forall_impl; [|exact Hl]. cbn beta. intros a [Ha Hadiv].
        apply in_divisors. split; [assumption | split; [assumption|]].
        apply (Z.divide_trans _ (y / p)); [assumption|].
        apply quotient_divides; [assumption|].
        pose proof (prime_gt_1 p Hp); lia.
      * rewrite (attains_quotient y p P l); assumption.
      * apply all_divide_spec; assumption.
Qed.

Lemma prime_powers_perm fs fs' :
  Permutation fs fs' -> prime_powers fs -> prime_powers fs'.
Proof.
  intros Hperm (Hnd & Hk & Hv). split; [|split].
  - eapply Permutation_NoDup; [|exact Hnd]. apply Permutation_map. exact Hperm.
  - eapply Permutation_Forall; [|exact Hk]. apply Permutation_map. exact Hperm.
  - eapply Permutation_Forall; [|exact Hv]. apply Permutation_map. exact Hperm.
Qed.

Lemma prime_powers_head q e e' fs :
  0 <= e' -> prime_powers ((q, e) :: fs) -> prime_powers ((q, e') :: fs).
Proof.
  unfold prime_powers, dict_keys, dict_values. cbn [map fst snd].
  intros He' (Hnd & Hk & Hv). inversion Hv; subst.
  split; [assumption | split; [assumption | constructor; assumption]].
Qed.

Lemma prod_pow_middle l1 l2 q e :
  prod_pow (l1 ++ (q, e) :: l2) = q ^ e * prod_pow (l1 ++ l2).
Proof. rewrite !prod_pow_app. cbn [prod_pow]. ring. Qed.

(** The count of sequences attaining the top powers of the primes of [act],
    the primes of [pas] being unconstrained. *)
Lemma attaining_count n act :
  forall pas,
    prime_powers (act ++ pas) ->
    Forall (fun e => 0 < e) (dict_values act) ->
    Z.of_nat (length (attaining n (prod_pow (act ++ pas)) (dict_keys act)))
    = exact_product (Z.of_nat n) act * free_product (Z.of_nat n) pas.
Proof.
  induction act as [|[p e] act IH]; intros pas Hpp Hpos.
  - cbn [app dict_keys map exact_product].
    rewrite length_attaining_nil, num_divisors_prod_pow by (lia || assumption).
    ring.
  - cbn [dict_values map snd] in Hpos. inversion Hpos as [|? ? He Hpos']; subst.
    cbn [app] in Hpp |- *. cbn [dict_keys map fst prod_pow exact_product].
    fold (dict_keys act).
    pose proof (prime_powers_tail _ _ _ Hpp) as (Hp & _ & Hnotin & Hpp').
    pose proof (prime_gt_1 p Hp) as Hp1.
    pose proof (prime_powers_pos _ Hpp') as Hrest.
    assert (Hpe : 0 < p ^ e) by (apply Z.pow_pos_nonneg; lia).
    assert (Hsplit : p ^ e * prod_pow (act ++ pas)
                     = (p ^ (e - 1) * prod_pow (act ++ pas)) * p).
    { replace e with (Z.succ (e - 1)) at 1 by lia.
      rewrite Z.pow_succ_r by lia. ring. }
    assert (Hstep : length (attaining n (p ^ e * prod_pow (act ++ pas)) (dict_keys act))
                    = (length (attaining n (p ^ e * prod_pow (act ++ pas))
                                         (p :: dict_keys act))
                       + length (attaining n (p ^ (e - 1) * prod_pow (act ++ pas))
                                           (dict_keys act)))%nat).
    { replace (p ^ (e - 1) * prod_pow (act ++ pas))
        with (p ^ e * prod_pow (act ++ pas) / p)
        by (rewrite Hsplit; apply Z.div_mul; lia).
      apply attaining_step.
      - nia.
      - assumption.
      - exists (p ^ (e - 1) * prod_pow (act ++ pas)). exact Hsplit.
      - intros Hin. apply Hnotin. rewrite dict_keys_app.
        apply in_or_app. left. exact Hin.
      - apply Forall_forall. intros q Hq. split.
        + destruct Hpp' as (_ & Hk & _). rewrite Forall_forall in Hk.
          apply Hk. rewrite dict_keys_app. apply in_or_app. left. exact Hq.
        + apply Z.divide_mul_r. rewrite prod_pow_app.
          apply Z.divide_mul_l. apply key_divides_prod_pow; assumption. }
    pose proof (IH ((p, e) :: pas)) as IH1.
    pose proof (IH ((p, e - 1) :: pas)) as IH2.
    rewrite prod_pow_middle in IH1, IH2. cbn [free_product] in IH1, IH2.
    replace (e - 1 + 1) with e in IH2 by lia.
    replace (Z.of_nat (length (attaining n (p ^ e * prod_pow (act ++ pas))
                                         (p :: dict_keys act))))
      with (Z.of_nat (length (attaining n (p ^ e * prod_pow (act ++ pas))
                                        (dict_keys act)))
            - Z.of_nat (length (attaining n (p ^ (e - 1) * prod_pow (act ++ pas))
                                          (dict_keys act)))) by lia.
    rewrite IH1, IH2; try assumption.
    + ring.
    + apply (prime_powers_perm ((p, e - 1) :: act ++ pas));
        [apply Permutation_middle|].
      apply (prime_powers_head p e); [lia | assumption].
    + apply (prime_powers_perm ((p, e) :: act ++ pas));
        [apply Permutation_middle | assumption].
Qed.

(** For sequences of divisors of [y], having lcm [y] means attaining the
    top power of every prime of [y]. *)
Lemma lcm_attains fs l :
  factorization fs ->
  Forall (fun a => In a (divisors (prod_pow fs))) l ->
  (lcm_list l =? prod_pow fs) = attains (prod_pow fs) (dict_keys fs) l.
Proof.
  intros Hf Hall.
  pose proof (factorization_pos fs Hf) as Hy.
  set (y := prod_pow fs) in *.
  assert (Hpos : Forall (fun a => 0 < a) l).
  { eapply Forall_impl; [|exact Hall]. cbn beta. intros a Ha.
    apply in_divisors in Ha. tauto. }
  assert (Hdiv : Forall (fun a => (a | y)) l).
  { eapply Forall_impl; [|exact Hall]. cbn beta. intros a Ha.
    apply in_divisors in Ha. tauto. }
  pose proof (lcm_list_pos l Hpos) as Hlpos.
  apply eq_true_iff_eq. rewrite Z.eqb_eq, attains_spec. split.
  - intros Hlcm p Hp. apply not_true_is_false. intros Hall'.
    apply all_divide_spec in Hall'; [|assumption].
    apply lcm_list_divide in Hall'. rewrite Hlcm in Hall'.
    apply (factorization_keys fs p Hf) in Hp. destruct Hp as [Hp Hpy].
    fold y in Hpy. pose proof (quotient_pos y p Hy Hp Hpy).
    apply Z.divide_pos_le in Hall'; lia.
  - intros Hatt. apply lcm_list_divide in Hdiv. destruct Hdiv as [t Ht].
    assert (Htpos : 0 < t) by nia.
    destruct (Z.eq_dec t 1) as [-> | Hne]; [lia|].
    exfalso.
    destruct (divisor_has_key fs t) as (p & Hp & Hpt).
    + destruct Hf as (Hnd & Hk & Hv). split; [|split]; auto using positive_nonneg.
    + lia.
    + exists (lcm_list l). fold y. lia.
    + specialize (Hatt p Hp).
      apply (factorization_keys fs p Hf) in Hp. destruct Hp as [Hp Hpy].
      pose proof (prime_gt_1 p Hp) as Hp1.
      assert (Hall' : all_divide (y / p) l = true); [|congruence].
      apply all_divide_spec; [assumption|]. apply lcm_list_divide.
      destruct Hpt as [t' Ht']. exists t'.
      rewrite Ht, Ht'. replace (t' * p * lcm_list l) with (t' * lcm_list l * p) by ring.
      apply Z.div_mul. lia.
Qed.

(** The number of sequences of length [n] with lcm [prod_pow fs]. *)
Lemma length_lcm_sequences n fs :
  0 <= n -> factorization fs ->
  Z.of_nat (length (lcm_sequences n (prod_pow fs))) = exact_product n fs.
Proof.
  intros Hn Hf. unfold lcm_sequences.
  rewrite (filter_ext_in _ (attains (prod_pow fs) (dict_keys fs))).
  - pose proof (attaining_count (Z.to_nat n) fs []) as H.
    rewrite app_nil_r, Z2Nat.id in H by assumption.
    unfold attaining in H. rewrite H.
    + cbn [free_product]. ring.
    + destruct Hf as (Hnd & Hk & Hv). split; [|split]; auto using positive_nonneg.
    + apply Hf.
  - intros l Hl. apply in_sequences in Hl. apply lcm_attains; [assumption | apply Hl].
Qed.

Lemma ie_product_exact n fs :
  Forall (fun e => 0 < e) (dict_values fs) ->
  ie_product n (dict_values fs) = exact_product n fs.
Proof.
  induction fs as [|[p e] fs IH]; cbn [dict_values map snd ie_product exact_product];
    intros Hv; [reflexivity|].
  inversion Hv; subst. fold (dict_values fs). rewrite IH by assumption.
  rewrite Z.max_r by lia. reflexivity.
Qed.

(** ** The canonical enumeration of the sequences with a given lcm *)

Lemma NoDup_lcm_sequences n y : NoDup (lcm_sequences n y).
Proof. apply NoDup_filter, NoDup_sequences, NoDup_divisors. Qed.

Lemma in_lcm_sequences n y l :
  0 <= n -> 0 < y -> (In l (lcm_sequences n y) <-> lcm_sequence n y l).
Proof.
  intros Hn Hy. unfold lcm_sequences, lcm_sequence.
  rewrite filter_In, in_sequences, Z.eqb_eq. split.
  - intros [[Hlen Hall] Hlcm]. split; [lia|]. split; [|assumption].
    eapply Forall_impl; [|exact Hall]. cbn beta. intros a Ha.
    apply in_divisors in Ha. tauto.
  - intros (Hlen & Hpos & Hlcm). split; [split; [lia|] | assumption].
    assert (Hdiv : Forall (fun a => (a | y)) l)
      by (apply lcm_list_divide; rewrite Hlcm; apply Z.divide_refl).
    rewrite Forall_forall in Hpos, Hdiv. apply Forall_forall. intros a Ha.
    apply in_divisors. auto.
Qed.

(** ** The structure of [count_sequences] *)

Lemma count_sequences_unfold n y :
  1 <= y ->
  exists fs,
    prime_factors y = Returns fs /\ factorization fs /\ prod_pow fs = y /\
    count_sequences n y
    = if y =? 1 then Returns (if n >=? 1 then 1 else 0)
      else if Z.of_nat (length (dict_keys fs)) >? 20 then Returns 0
           else inclusion_exclusion n fs (dict_keys fs)
                                    (Z.of_nat (length (dict_keys fs))).
Proof.
  intros Hy. destruct (prime_factors_returns y Hy) as (fs & Hpf & Hf & Hprod).
  exists fs. repeat split; try assumption; try apply Hf.
  unfold count_sequences. rewrite Hpf. reflexivity.
Qed.

Lemma prime_factors_one : prime_factors 1 = Returns [].
Proof. reflexivity. Qed.

(** Within the cap on distinct primes, [count_sequences] returns the number
    of sequences of the canonical enumeration, reduced modulo [MOD]. *)
Lemma count_sequences_exact n y :
  1 <= n -> 1 <= y -> num_distinct_primes y <= 20 ->
  count_sequences n y = Returns (Z.of_nat (length (lcm_sequences n y)) mod MOD).
Proof.
  intros Hn Hy Hcap.
  destruct (count_sequences_unfold n y Hy) as (fs & Hpf & Hf & Hprod & Hcs).
  rewrite Hcs.
  replace (Z.of_nat (length (lcm_sequences n y))) with (exact_product n fs)
    by (rewrite <- Hprod; symmetry; apply length_lcm_sequences; [lia | assumption]).
  destruct (Z.eqb_spec y 1) as [-> | Hne].
  - rewrite prime_factors_one in Hpf. injection Hpf as <-.
    destruct (Z.geb_spec n 1); [reflexivity | lia].
  - rewrite <- Hprod, num_distinct_primes_factorization in Hcap by assumption.
    destruct (Z.gtb_spec (Z.of_nat (length (dict_keys fs))) 20); [lia|].
    rewrite inclusion_exclusion_returns by (lia || apply Hf).
    rewrite ie_product_exact by apply Hf. reflexivity.
Qed.

(** ** Sums over the divisors of [y] *)

Lemma zsum_map_mod (m : Z) (l : list Z) :
  m <> 0 -> zsum (map (fun c => c mod m) l) mod m = zsum l mod m.
Proof.
  intros Hm. induction l as [|c l IH]; [reflexivity|].
  cbn [map]. rewrite !zsum_cons.
  rewrite Z.add_mod, Z.mod_mod, IH, <- Z.add_mod by assumption. reflexivity.
Qed.

Lemma num_distinct_primes_divisor y y' :
  In y' (divisors y) -> num_distinct_primes y' <= num_distinct_primes y.
Proof.
  intros Hy'. apply in_divisors in Hy'. destruct Hy' as (Hy & Hy'pos & Hdiv).
  unfold num_distinct_primes. apply inj_le.
  apply NoDup_incl_length; [apply NoDup_prime_divisors|].
  intros p Hp. apply in_prime_divisors in Hp. apply in_prime_divisors.
  destruct Hp as (_ & Hp & Hpy').
  split; [assumption | split; [assumption|]].
  eapply Z.divide_trans; eassumption.
Qed.

(** Every sequence of divisors of [y] has exactly one lcm, a divisor of [y]. *)
Lemma sum_lcm_sequences n y :
  0 <= n -> 0 < y ->
  zsum (map (fun y' => Z.of_nat (length (lcm_sequences n y'))) (divisors y))
  = num_divisors y ^ n.
Proof.
  intros Hn Hy. unfold num_divisors.
  replace (Z.of_nat (length (divisors y)) ^ n)
    with (Z.of_nat (length (sequences (Z.to_nat n) (divisors y))))
    by (rewrite length_sequences, Z2Nat.id by assumption; reflexivity).
  rewrite (partition_length lcm_list (divisors y)).
  - f_equal. apply map_ext_in. intros k Hk. f_equal.
    apply in_divisors in Hk. destruct Hk as (_ & Hkpos & Hky).
    apply same_members_length.
    + apply NoDup_lcm_sequences.
    + apply NoDup_filter, NoDup_sequences, NoDup_divisors.
    + intros l. unfold lcm_sequences.
      rewrite !filter_In, !in_sequences, !Z.eqb_eq. split.
      * intros [[Hlen Hall] Hlcm]. split; [split; [assumption|] | assumption].
        eapply Forall_impl; [|exact Hall]. cbn beta. intros a Ha.
        apply in_divisors in Ha. apply in_divisors.
        destruct Ha as (_ & Ha & Hak). repeat split; try assumption.
        eapply Z.divide_trans; eassumption.
      * intros [[Hlen Hall] Hlcm]. split; [split; [assumption|] | assumption].
        assert (Hdiv : Forall (fun a => (a | k)) l)
          by (apply lcm_list_divide; rewrite Hlcm; apply Z.divide_refl).
        rewrite Forall_forall in Hall, Hdiv. apply Forall_forall. intros a Ha.
        specialize (Hall a Ha). apply in_divisors in Hall.
        apply in_divisors. repeat split; try tauto. apply Hdiv. exact Ha.
  - apply NoDup_divisors.
  - apply Forall_forall. intros l Hl. apply in_sequences in Hl.
    destruct Hl as [_ Hall]. apply in_divisors.
    assert (Hpos : Forall (fun a => 0 < a) l).
    { eapply Forall_impl; [|exact Hall]. cbn beta. intros a Ha.
      apply in_divisors in Ha. tauto. }
    split; [assumption|]. split; [apply lcm_list_pos; assumption|].
    apply lcm_list_divide.
    eapply Forall_impl; [|exact Hall]. cbn beta. intros a Ha.
    apply in_divisors in Ha. tauto.
Qed.

(** ** At most nine distinct primes below 10^9 *)

Lemma filter_filter {A : Type} (f g : A -> bool) (l : list A) :
  filter f (filter g l) = filter (fun x => g x && f x) l.
Proof.
  induction l as [|x l IH]; cbn [filter]; [reflexivity|].
  destruct (g x); cbn [andb filter]; rewrite IH; reflexivity.
Qed.

(** The head of a filtered range, and what follows it. *)
Lemma filter_range_cons (h : Z -> bool) b x rest :
  forall a,
    filter h (range a b) = x :: rest ->
    a <= x /\ h x = true /\ rest = filter h (range (x + 1) b).
Proof.
  intros a. remember (Z.to_nat (b - a)) as k eqn:Hk. revert a Hk.
  induction k as [|k IH]; intros a Hk Hfil.
  - rewrite range_nil in Hfil by lia. discriminate.
  - rewrite range_cons in Hfil by lia. cbn [filter] in Hfil.
    destruct (h a) eqn:Hha.
    + injection Hfil as <- <-. auto with zarith.
    + destruct (IH (a + 1) ltac:(lia) Hfil) as (Hle & Hhx & Hrest).
      repeat split; try assumption. lia.
Qed.

Lemma zprod_cons x l : zprod (x :: l) = x * zprod l.
Proof. reflexivity. Qed.

Lemma zprod_ge_1 l : Forall (fun x => 1 <= x) l -> 1 <= zprod l.
Proof.
  induction 1 as [|x l Hx _ IH]; [cbn; lia|]. rewrite zprod_cons. nia.
Qed.

Lemma zprod_nonneg l : Forall (fun x => 0 <= x) l -> 0 <= zprod l.
Proof.
  induction 1 as [|x l Hx _ IH]; [cbn; lia|]. rewrite zprod_cons.
  apply Z.mul_nonneg_nonneg; assumption.
Qed.

(** An increasing list of primes dominates the table of the first primes
    entry by entry, hence in product. *)
Lemma ascending_primes_bound (h : Z -> bool) b table :
  (forall x, h x = true -> is_prime x = true) ->
  Forall (fun t => 0 <= t) table ->
  forall lo lo',
    prime_gaps lo table = true -> lo <= lo' ->
    (length table <= length (filter h (range lo' b)))%nat ->
    zprod table <= zprod (filter h (range lo' b)).
Proof.
  intros Hh Htable.
  assert (Hge1 : forall lo', 1 <= zprod (filter h (range lo' b))).
  { intros lo'. apply zprod_ge_1. apply Forall_forall. intros x Hx.
    apply filter_In in Hx. destruct Hx as [_ Hx]. apply Hh in Hx.
    apply is_prime_iff in Hx. pose proof (prime_gt_1 x Hx). lia. }
  induction Htable as [|t table Ht Htab IH]; intros lo lo' Hgaps Hlo Hlen.
  - apply Hge1.
  - cbn [prime_gaps] in Hgaps. apply andb_true_iff in Hgaps.
    destruct Hgaps as [Hgap Hgaps].
    destruct (filter h (range lo' b)) as [|x rest] eqn:Hfil;
      [cbn [length] in Hlen; lia|].
    apply filter_range_cons in Hfil. destruct Hfil as (Hx & Hhx & ->).
    assert (Htx : t <= x).
    { destruct (Z.le_gt_cases t x) as [H | H]; [assumption|].
      exfalso. rewrite forallb_forall in Hgap.
      specialize (Hgap x ltac:(apply in_range; lia)).
      rewrite (Hh x Hhx) in Hgap. discriminate. }
    cbn [length] in Hlen.
    specialize (IH (t + 1) (x + 1) Hgaps ltac:(lia) ltac:(lia)).
    specialize (Hge1 (x + 1)).
    rewrite !zprod_cons.
    pose proof (zprod_nonneg table Htab). nia.
Qed.

Lemma prime_divides_zprod p ps :
  Z.prime p -> Forall Z.prime ps -> (p | zprod ps) -> In p ps.
Proof.
  intros Hp. induction 1 as [|q ps Hq _ IH]; intros Hdiv.
  - cbn in Hdiv. pose proof (prime_gt_1 p Hp).
    apply Z.divide_1_r_nonneg in Hdiv; lia.
  - rewrite zprod_cons in Hdiv. apply Z.divide_prime_mul in Hdiv; [|assumption].
    destruct Hdiv as [Hdiv | Hdiv].
    + left. symmetry. apply Z.divide_prime_prime; assumption.
    + right. apply IH. exact Hdiv.
Qed.

(** The product of distinct primes dividing [y] divides [y]. *)
Lemma zprod_primes_divide ps y :
  NoDup ps -> Forall (fun p => Z.prime p /\ (p | y)) ps -> (zprod ps | y).
Proof.
  induction 1 as [|p ps Hnotin Hnd IH]; intros Hall.
  - apply Z.divide_1_l.
  - inversion Hall as [|? ? [Hp Hpy] Hall']; subst. specialize (IH Hall').
    rewrite zprod_cons. destruct Hpy as [k Hk].
    assert (Hcop : Z.gcd (zprod ps) p = 1).
    { rewrite Z.gcd_comm. apply Z.coprime_prime_l; [assumption|].
      intros Hdiv. apply Hnotin. apply prime_divides_zprod; try assumption.
      eapply Forall_impl; [|exact Hall']. cbn beta. tauto. }
    assert (Hk' : (zprod ps | k)).
    { apply (Z.gauss _ p); [|assumption]. rewrite Z.mul_comm, <- Hk. exact IH. }
    destruct Hk' as [c Hc]. exists c. rewrite Hk, Hc. ring.
Qed.

Lemma prime_gaps_first_primes : prime_gaps 1 first_primes = true.
Proof. vm_compute. reflexivity. Qed.

(** Ten distinct primes already multiply to more than 10^9. *)
Lemma ten_primes_lower_bound y :
  0 < y -> 10 <= num_distinct_primes y -> 6469693230 <= y.
Proof.
  intros Hy Hten. unfold num_distinct_primes in Hten.
  assert (Hdiv : (zprod (prime_divisors y) | y)).
  { apply zprod_primes_divide; [apply NoDup_prime_divisors|].
    apply Forall_forall. intros p Hp. apply in_prime_divisors in Hp. tauto. }
  apply Z.divide_pos_le in Hdiv; [|assumption].
  unfold prime_divisors, divisors in Hten, Hdiv. rewrite filter_filter in Hten, Hdiv.
  pose proof (ascending_primes_bound
                (fun d => (y mod d =? 0) && is_prime d) (y + 1) first_primes) as Hb.
  specialize (Hb ltac:(intros x Hx; apply andb_true_iff in Hx; tauto)).
  specialize (Hb ltac:(repeat constructor; lia)).
  specialize (Hb 1 1 prime_gaps_first_primes ltac:(lia)).
  change (length first_primes) with 10%nat in Hb.
  change (zprod first_primes) with 6469693230 in Hb.
  specialize (Hb ltac:(lia)). lia.
Qed.

(** ** A target above the cap *)

Lemma factorization_first_21_primes : factorization first_21_primes.
Proof.
  split; [|split]; cbn [first_21_primes dict_keys dict_values map fst snd].
  - repeat constructor; cbn [In]; lia.
  - repeat (apply Forall_cons || apply Forall_nil); apply is_prime_iff; reflexivity.
  - repeat (apply Forall_cons || apply Forall_nil); lia.
Qed.

Lemma num_distinct_primes_first_21 :
  num_distinct_primes (prod_pow first_21_primes) = 21.
Proof.
  rewrite num_distinct_primes_factorization by apply factorization_first_21_primes.
  reflexivity.
Qed.

(** * The contracts *)

(** C1. For every n >= 1 and y >= 1 with at most 20 distinct prime factors,
    [count_sequences n y] returns the number of sequences of n positive
    integers whose lcm is exactly y, reduced modulo 1,000,000,007: whatever
    list [L] enumerates these sequences without repetition, the result is
    the length of [L] modulo [MOD]. *)
Theorem count_sequences_counts_lcm n y (L : list (list Z)) :
  1 <= n -> 1 <= y -> num_distinct_primes y <= 20 ->
  NoDup L -> (forall l, In l L <-> lcm_sequence n y l) ->
  count_sequences n y = Returns (Z.of_nat (length L) mod MOD).
Proof.
  intros Hn Hy Hcap HL Hmem.
  rewrite count_sequences_exact by assumption. do 3 f_equal.
  apply same_members_length; [apply NoDup_lcm_sequences | assumption|].
  intros l. rewrite Hmem. apply in_lcm_sequences; lia.
Qed.

Lemma count_sequences_counts_lcm_witness :
  length (lcm_sequences 2 6) = 9%nat /\
  count_sequences 2 6 = Returns (Z.of_nat (length (lcm_sequences 2 6)) mod MOD).
Proof.
  split; [reflexivity|].
  apply (count_sequences_counts_lcm 2 6 (lcm_sequences 2 6)).
  - lia.
  - lia.
  - vm_compute. discriminate.
  - apply NoDup_lcm_sequences.
  - intros l. apply in_lcm_sequences; lia.
Defined.

Example lcm_sequences_3_9 : length (lcm_sequences 3 9) = 19%nat.
Proof. reflexivity. Qed.

(** C2. For a non-negative base, a non-negative exponent and a modulus
    M > 1, [power_mod base exp M] returns (base ^ exp) mod M; for exponent 0
    this is 1, whatever the base. *)
Theorem power_mod_correct base exp M :
  0 <= base -> 0 <= exp -> 1 < M ->
  power_mod base exp M = Returns (base ^ exp mod M) /\
  (exp = 0 -> power_mod base exp M = Returns 1).
Proof.
  intros Hb He HM. split.
  - destruct (Z.eq_dec exp 0) as [-> | Hne].
    + rewrite power_mod_nonpos by lia. rewrite Z.pow_0_r, Z.mod_1_l by lia.
      reflexivity.
    + apply power_mod_pos; lia.
  - intros ->. apply power_mod_nonpos; lia.
Qed.

Lemma power_mod_correct_witness :
  power_mod 2 10 MOD = Returns (2 ^ 10 mod MOD) /\
  (10 = 0 -> power_mod 2 10 MOD = Returns 1).
Proof. apply power_mod_correct; [lia | lia | reflexivity]. Defined.

Example power_mod_2_10 : power_mod 2 10 MOD = Returns 1024.
Proof. reflexivity. Qed.

Example power_mod_zero_base : power_mod 0 0 MOD = Returns 1.
Proof. reflexivity. Qed.

(** C3. For n >= 1, [prime_factors n] returns a mapping whose keys are
    pairwise distinct primes, whose values are positive, and whose product
    of p ^ e is n; for n = 1 the mapping is empty. *)
Theorem prime_factors_correct n :
  1 <= n ->
  exists fs,
    prime_factors n = Returns fs /\
    NoDup (dict_keys fs) /\
    Forall Z.prime (dict_keys fs) /\
    Forall (fun e => 0 < e) (dict_values fs) /\
    prod_pow fs = n /\
    (n = 1 -> fs = []).
Proof.
  intros Hn. destruct (prime_factors_returns n Hn) as (fs & Hpf & (Hnd & Hk & Hv) & Hprod).
  exists fs. repeat split; try assumption.
  intros ->. rewrite prime_factors_one in Hpf. congruence.
Qed.

Lemma prime_factors_correct_witness :
  exists fs,
    prime_factors 360 = Returns fs /\
    NoDup (dict_keys fs) /\
    Forall Z.prime (dict_keys fs) /\
    Forall (fun e => 0 < e) (dict_values fs) /\
    prod_pow fs = 360 /\
    (360 = 1 -> fs = []).
Proof. apply prime_factors_correct. lia. Defined.

Example prime_factors_360 : prime_factors 360 = Returns [(2, 3); (3, 2); (5, 1)].
Proof. reflexivity. Qed.

(** C4. For n >= 1 and y > 1 with k distinct prime factors: if k > 20 then
    [count_sequences n y] returns 0.  If k <= 20 the guard lets the
    factorization through and the full computation is performed: the result
    is that of the code after the guard, which is the alternating sum of the
    terms of all 2 ^ k masks (mask 0 contributing the total D ^ n, each
    other mask its reduced count to the n, negated when its number of set
    bits is odd) reduced modulo MOD, and hence the number of sequences with
    lcm y modulo MOD. *)
Theorem count_sequences_guard n y :
  1 <= n -> 1 < y ->
  (20 < num_distinct_primes y -> count_sequences n y = Returns 0) /\
  (num_distinct_primes y <= 20 ->
   exists fs,
     prime_factors y = Returns fs /\
     factorization fs /\ prod_pow fs = y /\
     Z.of_nat (length fs) = num_distinct_primes y /\
     count_sequences n y
     = inclusion_exclusion n fs (dict_keys fs)
                           (Z.of_nat (length (dict_keys fs))) /\
     count_sequences n y
     = Returns (zsum (map (ie_term n (dict_values fs))
                          (range 0 (2 ^ num_distinct_primes y))) mod MOD) /\
     count_sequences n y
     = Returns (Z.of_nat (length (lcm_sequences n y)) mod MOD)).
Proof.
  intros Hn Hy.
  destruct (count_sequences_unfold n y ltac:(lia)) as (fs & Hpf & Hf & Hprod & Hcs).
  pose proof (num_distinct_primes_factorization fs Hf) as Hk. rewrite Hprod in Hk.
  destruct (Z.eqb_spec y 1) as [Hy1 | _]; [lia|].
  split; intros Hcap.
  - rewrite Hcs. destruct (Z.gtb_spec (Z.of_nat (length (dict_keys fs))) 20); [reflexivity | lia].
  - exists fs. split; [assumption|]. split; [assumption|]. split; [assumption|].
    split; [rewrite Hk, length_dict_keys; reflexivity|].
    destruct (Z.gtb_spec (Z.of_nat (length (dict_keys fs))) 20) as [Hgt | _]; [lia|].
    split; [exact Hcs | split].
    + rewrite Hcs, inclusion_exclusion_returns by (lia || apply Hf).
      rewrite <- (ie_sum n (dict_values fs)) by lia.
      rewrite Hk, length_dict_keys, length_dict_values, Nat2Z.inj_pow.
      reflexivity.
    + apply count_sequences_exact; lia.
Qed.

Lemma count_sequences_guard_witness :
  (num_distinct_primes 6 = 2 /\
   exists fs,
     prime_factors 6 = Returns fs /\
     factorization fs /\ prod_pow fs = 6 /\
     Z.of_nat (length fs) = num_distinct_primes 6 /\
     count_sequences 2 6
     = inclusion_exclusion 2 fs (dict_keys fs)
                           (Z.of_nat (length (dict_keys fs))) /\
     count_sequences 2 6
     = Returns (zsum (map (ie_term 2 (dict_values fs))
                          (range 0 (2 ^ num_distinct_primes 6))) mod MOD) /\
     count_sequences 2 6
     = Returns (Z.of_nat (length (lcm_sequences 2 6)) mod MOD)) /\
  (num_distinct_primes (prod_pow first_21_primes) = 21 /\
   count_sequences 3 (prod_pow first_21_primes) = Returns 0).
Proof.
  split; split.
  - reflexivity.
  - apply (count_sequences_guard 2 6); [lia | lia | vm_compute; discriminate].
  - exact num_distinct_primes_first_21.
  - apply (count_sequences_guard 3 (prod_pow first_21_primes)).
    + lia.
    + vm_compute. reflexivity.
    + rewrite num_distinct_primes_first_21. lia.
Defined.

Example inclusion_exclusion_sum_2_6 :
  map (ie_term 2 [1; 1]) (range 0 (2 ^ 2)) = [16; -4; -4; 1].
Proof. reflexivity. Qed.

(** The guard at work: the product of the first 21 primes is turned away. *)
Example count_sequences_capped :
  count_sequences 3 (2 * 3 * 5 * 7 * 11 * 13 * 17 * 19 * 23 * 29 * 31 * 37
                     * 41 * 43 * 47 * 53 * 59 * 61 * 67 * 71 * 73)
  = Returns 0.
Proof. vm_compute. reflexivity. Qed.

(** C5. The two examples of the problem statement. *)
Theorem count_sequences_examples :
  count_sequences 2 6 = Returns 9 /\ count_sequences 3 9 = Returns 19.
Proof. split; vm_compute; reflexivity. Qed.

(** C6. [count_sequences n 1] is 1 for every n >= 1 and 0 for every n < 1. *)
Theorem count_sequences_one n :
  (1 <= n -> count_sequences n 1 = Returns 1) /\
  (n < 1 -> count_sequences n 1 = Returns 0).
Proof.
  unfold count_sequences. cbn [Z.eqb Pos.eqb].
  destruct (Z.geb_spec n 1); split; intros; (reflexivity || lia).
Qed.

Lemma count_sequences_one_witness :
  count_sequences 5 1 = Returns 1 /\ count_sequences 0 1 = Returns 0.
Proof.
  split.
  - apply (count_sequences_one 5). lia.
  - apply (count_sequences_one 0). lia.
Defined.

(** C7. For n >= 1 and y >= 1 within the cap on distinct primes, the values
    returned by [count_sequences n y'] for the positive divisors y' of y sum
    up, modulo 1,000,000,007, to the n-th power of the number of divisors of
    y. *)
Theorem count_sequences_divisor_sum n y :
  1 <= n -> 1 <= y -> num_distinct_primes y <= 20 ->
  exists counts,
    Forall2 (fun y' c => count_sequences n y' = Returns c) (divisors y) counts /\
    zsum counts mod MOD = num_divisors y ^ n mod MOD.
Proof.
  intros Hn Hy Hcap.
  exists (map (fun y' => Z.of_nat (length (lcm_sequences n y')) mod MOD) (divisors y)).
  split.
  - assert (H : Forall (fun y' => 1 <= y' /\ num_distinct_primes y' <= 20) (divisors y)).
    { apply Forall_forall. intros y' Hy'.
      pose proof (num_distinct_primes_divisor y y' Hy').
      apply in_divisors in Hy'. lia. }
    induction H as [|y' ds [Hy' Hcap'] _ IH]; cbn [map]; constructor.
    + apply count_sequences_exact; assumption.
    + exact IH.
  - rewrite <- (map_map (fun y' => Z.of_nat (length (lcm_sequences n y')))
                        (fun c => c mod MOD)).
    rewrite zsum_map_mod by (rewrite MOD_eq; lia).
    rewrite sum_lcm_sequences by lia. reflexivity.
Qed.

Lemma count_sequences_divisor_sum_witness :
  exists counts,
    Forall2 (fun y' c => count_sequences 2 y' = Returns c) (divisors 6) counts /\
    zsum counts mod MOD = num_divisors 6 ^ 2 mod MOD.
Proof.
  apply count_sequences_divisor_sum; [lia | lia | vm_compute; discriminate].
Defined.

Example divisor_sum_2_6 :
  map (count_sequences 2) (divisors 6)
  = [Returns 1; Returns 3; Returns 3; Returns 9]
  /\ 1 + 3 + 3 + 9 = num_divisors 6 ^ 2.
Proof. split; vm_compute; reflexivity. Qed.

(** C8. For n >= 1 and y >= 1 the value returned by [count_sequences n y]
    lies in [0, MOD - 1].  In the inclusion-exclusion loop, every iteration
    started from a residue subtracts or adds a residue [sequences], the
    subtraction is made on [result - sequences + MOD], which is not
    negative, and the running result, started from the reduced total, is
    again a residue after every mask, however far the loop has got. *)
Theorem count_sequences_in_range n y :
  1 <= n -> 1 <= y ->
  (exists r, count_sequences n y = Returns r /\ 0 <= r < MOD) /\
  (forall fs,
     prime_factors y = Returns fs ->
     let primes := dict_keys fs in
     let num_primes := Z.of_nat (length primes) in
     (forall mask result,
        0 <= mask -> 0 <= result < MOD ->
        exists sequences,
          0 <= sequences < MOD /\
          0 <= result - sequences + MOD /\
          mask_body n fs primes num_primes mask result
          = Returns (if popcount mask mod 2 =? 1
                     then (result - sequences + MOD) mod MOD
                     else (result + sequences) mod MOD)) /\
     (exists total,
        power_mod (fold_left (fun divisor_count power => divisor_count * (power + 1))
                             (dict_values fs) 1) n MOD = Returns total /\
        0 <= total < MOD /\
        forall stop,
        exists r,
          for_each (range 1 stop) (mask_body n fs primes num_primes) total
          = Returns r /\
          0 <= r < MOD)).
Proof.
  intros Hn Hy.
  assert (HM : 0 < MOD) by (rewrite MOD_eq; lia).
  destruct (count_sequences_unfold n y Hy) as (fs & Hpf & Hf & Hprod & Hcs).
  split.
  - rewrite Hcs. destruct (y =? 1).
    + destruct (n >=? 1); eexists; (split; [reflexivity | rewrite MOD_eq; lia]).
    + destruct (Z.of_nat (length (dict_keys fs)) >? 20).
      * eexists; (split; [reflexivity | lia]).
      * rewrite inclusion_exclusion_returns by (lia || apply Hf).
        eexists. split; [reflexivity|]. apply Z.mod_pos_bound. exact HM.
  - intros fs' Hpf'. rewrite Hpf in Hpf'. injection Hpf' as <-. cbv zeta. split.
    + intros mask result Hmask Hres.
      exists (reduced (dict_values fs) mask ^ n mod MOD).
      pose proof (Z.mod_pos_bound (reduced (dict_values fs) mask ^ n) MOD HM).
      split; [assumption|]. split; [lia|].
      apply mask_body_step; [lia | apply Hf | assumption].
    + rewrite power_mod_MOD by lia. eexists. split; [reflexivity|].
      split; [apply Z.mod_pos_bound; exact HM|].
      intros stop. rewrite mask_loop_returns.
      * eexists. split; [reflexivity|]. apply Z.mod_pos_bound. exact HM.
      * lia.
      * apply Hf.
      * apply Forall_forall. intros mask Hmask. apply in_range in Hmask. lia.
      * apply Z.mod_mod. lia.
Qed.

Lemma count_sequences_in_range_witness :
  exists r, count_sequences 3 9 = Returns r /\ 0 <= r < MOD.
Proof. apply (count_sequences_in_range 3 9); lia. Defined.

(** C9. Every y with 1 <= y <= 10^9 has at most 9 distinct prime factors,
    so for such y and every n >= 1 the test [num_primes > 20] of
    [count_sequences] is false and the branch returning 0 is not taken. *)
Theorem safety_cap_unreachable y :
  1 <= y <= 10 ^ 9 ->
  num_distinct_primes y <= 9 /\
  (forall n, 1 <= n ->
     exists fs,
       prime_factors y = Returns fs /\
       (Z.of_nat (length (dict_keys fs)) >? 20) = false /\
       count_sequences n y
       = if y =? 1 then Returns 1
         else inclusion_exclusion n fs (dict_keys fs)
                                  (Z.of_nat (length (dict_keys fs)))).
Proof.
  intros Hy.
  assert (Hnine : num_distinct_primes y <= 9).
  { destruct (Z.le_gt_cases (num_distinct_primes y) 9) as [H | H]; [assumption|].
    pose proof (ten_primes_lower_bound y ltac:(lia) ltac:(lia)).
    change (10 ^ 9) with 1000000000 in Hy. lia. }
  split; [assumption|]. intros n Hn.
  destruct (count_sequences_unfold n y ltac:(lia)) as (fs & Hpf & Hf & Hprod & Hcs).
  pose proof (num_distinct_primes_factorization fs Hf) as Hk. rewrite Hprod in Hk.
  exists fs. split; [assumption|].
  assert (Hguard : (Z.of_nat (length (dict_keys fs)) >? 20) = false).
  { destruct (Z.gtb_spec (Z.of_nat (length (dict_keys fs))) 20); [lia | reflexivity]. }
  split; [assumption|].
  rewrite Hcs, Hguard. destruct (y =? 1); [|reflexivity].
  destruct (Z.geb_spec n 1); [reflexivity | lia].
Qed.

Lemma safety_cap_unreachable_witness :
  num_distinct_primes 510510 <= 9 /\
  (forall n, 1 <= n ->
     exists fs,
       prime_factors 510510 = Returns fs /\
       (Z.of_nat (length (dict_keys fs)) >? 20) = false /\
       count_sequences n 510510
       = if 510510 =? 1 then Returns 1
         else inclusion_exclusion n fs (dict_keys fs)
                                  (Z.of_nat (length (dict_keys fs)))).
Proof. apply safety_cap_unreachable. vm_compute. split; discriminate. Defined.

(** C10. [count_sequences 0 y] returns 0 for every y >= 1: every power term
    [power_mod b 0 MOD] is 1, and the alternating sum of the terms vanishes. *)
Theorem count_sequences_zero y :
  1 <= y ->
  count_sequences 0 y = Returns 0 /\
  (forall b, power_mod b 0 MOD = Returns 1).
Proof.
  intros Hy. split; [|intros b; apply power_mod_nonpos; [rewrite MOD_eq|]; lia].
  destruct (count_sequences_unfold 0 y Hy) as (fs & Hpf & Hf & Hprod & Hcs).
  rewrite Hcs. destruct (Z.eqb_spec y 1) as [_ | Hne]; [reflexivity|].
  destruct (Z.of_nat (length (dict_keys fs)) >? 20); [reflexivity|].
  rewrite inclusion_exclusion_returns by (lia || apply Hf).
  destruct fs as [|[p e] fs]; [cbn in Hprod; lia|].
  cbn [dict_values map snd ie_product]. rewrite !Z.pow_0_r. reflexivity.
Qed.

Lemma count_sequences_zero_witness :
  count_sequences 0 12 = Returns 0 /\
  (forall b, power_mod b 0 MOD = Returns 1).
Proof. apply count_sequences_zero. lia. Defined.

(** * Further properties *)

(** ** Modular exponentiation outside its contract *)

Lemma while_skip {St : Type} (cond : St -> bool) (body : St -> outcome St) k s :
  cond s = false -> while cond body k s = Returns s.
Proof.
  intros Hc.
  assert (Hit : iterate cond body k s = Returns s).
  { induction k as [|k IH]; cbn [iterate].
    - rewrite Hc. reflexivity.
    - rewrite IH. cbn [bind]. rewrite Hc. reflexivity. }
  unfold while. rewrite Hit. cbn [bind]. rewrite Hc. reflexivity.
Qed.

(** X1. For a positive exponent, any integer base (negative ones included)
    and any non-zero modulus (negative ones included), [power_mod] returns
    base ^ exp reduced with Python's floor modulo: a value in [0, m) for
    m > 0 and in (m, 0] for m < 0. *)
Theorem power_mod_any_modulus base exp m :
  0 < exp -> m <> 0 ->
  exists r,
    power_mod base exp m = Returns r /\
    r = base ^ exp mod m /\
    (0 < m -> 0 <= r < m) /\
    (m < 0 -> m < r <= 0).
Proof.
  intros He Hm. exists (base ^ exp mod m). split; [|split; [reflexivity | split]].
  - apply power_mod_pos; assumption.
  - apply Z.mod_pos_bound.
  - apply Z.mod_neg_bound.
Qed.

Lemma power_mod_any_modulus_witness :
  exists r,
    power_mod (-7) 3 (-5) = Returns r /\
    r = (-7) ^ 3 mod (-5) /\
    (0 < -5 -> 0 <= r < -5) /\
    (-5 < 0 -> -5 < r <= 0).
Proof. apply power_mod_any_modulus; lia. Defined.

Example power_mod_negative : power_mod (-7) 3 (-5) = Returns (-3).
Proof. reflexivity. Qed.

(** X2. With an exponent that is zero or negative the loop never runs and
    [power_mod] returns 1 unreduced, whatever the base and the non-zero
    modulus: negative exponents are not inverted, and for modulus 1 the
    result 1 is not the residue base ^ 0 mod 1 = 0. *)
Theorem power_mod_nonpositive_exponent base exp m :
  exp <= 0 -> m <> 0 ->
  power_mod base exp m = Returns 1 /\
  (m = 1 -> power_mod base exp m <> Returns (base ^ 0 mod m)).
Proof.
  intros He Hm. rewrite power_mod_nonpos by assumption. split; [reflexivity|].
  intros ->. rewrite Z.mod_1_r. discriminate.
Qed.

Lemma power_mod_nonpositive_exponent_witness :
  power_mod 5 (-2) 1 = Returns 1 /\
  (1 = 1 -> power_mod 5 (-2) 1 <> Returns (5 ^ 0 mod 1)).
Proof. apply power_mod_nonpositive_exponent; lia. Defined.

(** X3. [power_mod] raises [ZeroDivisionError] exactly when the modulus is
    0, at the first reduction of the base; with any other modulus it
    returns a value, for every base and exponent. *)
Theorem power_mod_raises_iff base exp m :
  (power_mod base exp m = Raises ZeroDivisionError <-> m = 0) /\
  (m <> 0 -> exists r, power_mod base exp m = Returns r).
Proof.
  assert (Hret : m <> 0 -> exists r, power_mod base exp m = Returns r).
  { intros Hm. destruct (Z.lt_ge_cases 0 exp) as [He | He].
    - eexists. apply power_mod_pos; assumption.
    - eexists. apply power_mod_nonpos; assumption. }
  split; [|exact Hret]. split.
  - intros Hraise. destruct (Z.eq_dec m 0) as [H0 | Hne]; [assumption|].
    destruct (Hret Hne) as [r Hr]. congruence.
  - intros ->. reflexivity.
Qed.

(** ** Trial division: edge cases, order of the keys, uniqueness *)

Lemma prime_factors_no_loop n :
  n < 4 -> prime_factors n = Returns (if n >? 1 then [(n, 1)] else []).
Proof.
  intros Hn. unfold prime_factors. cbv zeta.
  erewrite bind_returns.
  2:{ apply while_skip. unfold trial_cond. apply Z.leb_gt. lia. }
  cbn [dict_get dict_set]. reflexivity.
Qed.

(** X4. Below 4 the trial loop never runs: [prime_factors] returns the
    empty mapping for every n <= 1, zero and negative numbers included, and
    the mapping [{n: 1}] for n = 2 and n = 3. *)
Theorem prime_factors_below_4 n :
  n < 4 ->
  prime_factors n = Returns (if n >? 1 then [(n, 1)] else []).
Proof. apply prime_factors_no_loop. Qed.

Lemma prime_factors_below_4_witness :
  prime_factors (-12) = Returns (if -12 >? 1 then [(-12, 1)] else []).
Proof. apply prime_factors_below_4. lia. Defined.

Lemma dict_set_keys_in (f : dict) k v :
  In k (dict_keys f) -> dict_keys (dict_set f k v) = dict_keys f.
Proof.
  induction f as [|[k' v'] f IH]; cbn [dict_keys map fst dict_set]; intros Hin.
  - destruct Hin.
  - destruct (Z.eqb_spec k' k) as [-> | Hne]; [reflexivity|].
    cbn [map fst]. f_equal. apply IH. destruct Hin; [contradiction | assumption].
Qed.

Lemma dict_set_keys_notin (f : dict) k v :
  ~ In k (dict_keys f) -> dict_keys (dict_set f k v) = dict_keys f ++ [k].
Proof.
  induction f as [|[k' v'] f IH]; cbn [dict_keys map fst dict_set]; intros Hnotin.
  - reflexivity.
  - destruct (Z.eqb_spec k' k) as [-> | Hne];
      [exfalso; apply Hnotin; left; reflexivity|].
    cbn [map fst app]. f_equal. apply IH. intros Hin. apply Hnotin. right. exact Hin.
Qed.

Lemma sorted_snoc l d :
  StronglySorted Z.lt l -> Forall (fun x => x < d) l ->
  StronglySorted Z.lt (l ++ [d]).
Proof.
  induction 1 as [|a l Hs IH Ha]; intros Hlt; cbn [app].
  - constructor; constructor.
  - inversion Hlt as [|? ? Had Hlt']; subst. constructor; [apply IH; assumption|].
    apply Forall_app. split; [assumption | constructor; [assumption | constructor]].
Qed.

(** Recording a divisor that is at least as large as every key keeps the
    keys in increasing order. *)
Lemma ascending_bump f d v :
  ascending_keys f -> Forall (fun p => p <= d) (dict_keys f) ->
  ascending_keys (dict_set f d v).
Proof.
  unfold ascending_keys. intros Hs Hle.
  destruct (in_dec Z.eq_dec d (dict_keys f)) as [Hin | Hnotin].
  - rewrite dict_set_keys_in; assumption.
  - rewrite dict_set_keys_notin by assumption. apply sorted_snoc; [assumption|].
    rewrite Forall_forall in Hle |- *. intros x Hx. specialize (Hle x Hx).
    assert (x <> d) by (intros ->; contradiction). lia.
Qed.

Lemma divide_body_sorted n0 d s :
  2 <= d ->
  divide_inv n0 d s /\ ascending_keys (fst s) -> divide_cond d s = true ->
  exists s', divide_body d s = Returns s' /\
             (divide_inv n0 d s' /\ ascending_keys (fst s')) /\
             0 <= snd s' < snd s.
Proof.
  intros Hd [HI Hs] Hc.
  destruct (divide_body_ok n0 d s Hd HI Hc) as (s' & Hb & HI' & Hmu).
  exists s'. split; [exact Hb|]. split; [split; [exact HI'|] | exact Hmu].
  destruct s as [f n]. unfold divide_body in Hb. injection Hb as <-.
  cbn [fst] in *. apply ascending_bump; [assumption|].
  unfold divide_inv in HI. tauto.
Qed.

Lemma trial_body_sorted n0 s :
  trial_inv n0 s /\ ascending_keys (fst (fst s)) -> trial_cond s = true ->
  exists s', trial_body s = Returns s' /\
             (trial_inv n0 s' /\ ascending_keys (fst (fst s'))) /\
             0 <= n0 - snd (fst s') < n0 - snd (fst s).
Proof.
  intros [HI Hs] Hc.
  destruct (trial_body_ok n0 s HI Hc) as (s' & Hb & HI' & Hmu).
  exists s'. split; [exact Hb|]. split; [split; [exact HI'|] | exact Hmu].
  destruct s as [[f d] n]. cbn [fst] in Hs.
  unfold trial_inv in HI. destruct HI as (Hd & Hn & Hfact & Hprod & Hlt & Hrough).
  destruct (while_total (divide_cond d) (divide_body d)
              (fun s => divide_inv n0 d s /\ ascending_keys (fst s))
              (fun s => snd s) (fun s => divide_body_sorted n0 d s Hd)
              (bits n) (f, n)) as ([f' n'] & Hw & [_ Hs'] & _).
  - split; [|exact Hs]. unfold divide_inv.
    split; [lia | split; [assumption | split; [assumption | split; [|assumption]]]].
    eapply Forall_impl; [|exact Hlt]. cbn beta. intros; lia.
  - cbn [snd]. apply bits_spec.
  - unfold trial_body in Hb. rewrite Hw in Hb. cbn [bind] in Hb.
    injection Hb as <-. exact Hs'.
Qed.

(** The keys come out in increasing order. *)
Lemma prime_factors_sorted n :
  1 <= n ->
  exists fs, prime_factors n = Returns fs /\ factorization fs /\
             prod_pow fs = n /\ ascending_keys fs.
Proof.
  intros Hn.
  destruct (prime_factors_returns n Hn) as (fs & Hpf & Hf & Hprod).
  exists fs. split; [exact Hpf|]. split; [exact Hf|]. split; [exact Hprod|].
  unfold prime_factors in Hpf. cbv zeta in Hpf.
  destruct (while_total trial_cond trial_body
              (fun s => trial_inv n s /\ ascending_keys (fst (fst s)))
              (fun s => n - snd (fst s)) (trial_body_sorted n)
              (bits n) ([], 2, n)) as ([[f d] m] & Hw & [HI Hs] & Hc).
  - split; [|constructor]. unfold trial_inv.
    split; [lia | split; [lia | split; [|split; [|split]]]].
    + repeat constructor.
    + cbn. destruct n; reflexivity.
    + constructor.
    + intros q Hq. lia.
  - cbn [fst snd]. pose proof (bits_spec n). lia.
  - erewrite bind_returns in Hpf by exact Hw. injection Hpf as <-.
    cbn [fst] in Hs. unfold trial_inv in HI.
    destruct HI as (Hd & Hm & _ & _ & Hlt & Hrough).
    destruct (Z.gtb_spec m 1) as [Hm1 | Hm1]; [|assumption].
    assert (Hdm : d <= m).
    { destruct (Z.le_gt_cases d m) as [H | H]; [assumption|].
      exfalso. apply (Hrough m); [lia | apply Z.divide_refl]. }
    apply ascending_bump; [assumption|].
    eapply Forall_impl; [|exact Hlt]. cbn beta. intros; lia.
Qed.

(** Two increasing lists with the same members are equal. *)
Lemma sorted_same_members l :
  forall l',
    StronglySorted Z.lt l -> StronglySorted Z.lt l' ->
    (forall x, In x l <-> In x l') -> l = l'.
Proof.
  induction l as [|a l IH]; intros l' Hs Hs' Hmem.
  - destruct l' as [|b l']; [reflexivity|].
    exfalso. apply (Hmem b). left. reflexivity.
  - destruct l' as [|b l'].
    + exfalso. apply (Hmem a). left. reflexivity.
    + apply StronglySorted_inv in Hs, Hs'.
      destruct Hs as [Hs Ha], Hs' as [Hs' Hb].
      rewrite Forall_forall in Ha, Hb.
      assert (Hab : a = b).
      { destruct (proj1 (Hmem a) (or_introl eq_refl)) as [H | H]; [congruence|].
        destruct (proj2 (Hmem b) (or_introl eq_refl)) as [H' | H']; [congruence|].
        specialize (Ha b H'). specialize (Hb a H). lia. }
      subst b. f_equal. apply IH; try assumption.
      intros x. split; intros Hx.
      * destruct (proj1 (Hmem x) (or_intror Hx)) as [H | H]; [|assumption].
        specialize (Ha x Hx). lia.
      * destruct (proj2 (Hmem x) (or_intror Hx)) as [H | H]; [|assumption].
        specialize (Hb x Hx). lia.
Qed.

(** With the same primes in the same order, the exponents are determined
    by the product. *)
Lemma exponents_unique fs :
  forall fs',
    dict_keys fs = dict_keys fs' -> prime_powers fs -> prime_powers fs' ->
    prod_pow fs = prod_pow fs' -> fs = fs'.
Proof.
  induction fs as [|[p e] fs IH]; intros fs' Hkeys Hpp Hpp' Hprod.
  - destruct fs' as [|[p' e'] fs']; [reflexivity | discriminate].
  - destruct fs' as [|[p' e'] fs']; [discriminate|].
    cbn [dict_keys map fst] in Hkeys. injection Hkeys as <- Hkeys.
    apply prime_powers_tail in Hpp, Hpp'.
    destruct Hpp as (Hp & He & Hnotin & Hpp), Hpp' as (_ & He' & Hnotin' & Hpp').
    pose proof (prime_gt_1 p Hp) as Hp1.
    pose proof (fresh_prime_not_divide p fs Hp Hpp Hnotin) as Hfresh.
    pose proof (fresh_prime_not_divide p fs' Hp Hpp' Hnotin') as Hfresh'.
    cbn [prod_pow] in Hprod.
    assert (Hee : e = e').
    { destruct (Z.lt_trichotomy e e') as [Hlt | [Heq | Hgt]]; [|assumption|].
      - exfalso. apply Hfresh.
        apply (prime_power_times_lt p e e' _ (prod_pow fs')); [assumption | lia | assumption].
      - exfalso. apply Hfresh'.
        apply (prime_power_times_lt p e' e _ (prod_pow fs)); [assumption | lia | congruence]. }
    subst e'. f_equal. apply IH; try assumption.
    apply (Z.mul_reg_l _ _ (p ^ e)); [|assumption].
    apply Z.pow_nonzero; lia.
Qed.

Lemma factorization_prime_powers fs : factorization fs -> prime_powers fs.
Proof.
  intros (Hnd & Hk & Hv). split; [|split]; auto using positive_nonneg.
Qed.

(** [prime_factors] undoes [prod_pow] on increasing factorizations. *)
Lemma prime_factors_prod_pow fs :
  factorization fs -> ascending_keys fs ->
  prime_factors (prod_pow fs) = Returns fs.
Proof.
  intros Hf Hs. pose proof (factorization_pos fs Hf) as Hpos.
  destruct (prime_factors_sorted (prod_pow fs) ltac:(lia))
    as (fs' & Hpf & Hf' & Hprod & Hs').
  rewrite Hpf. f_equal. apply exponents_unique;
    auto using factorization_prime_powers.
  apply sorted_same_members; try assumption.
  intros p. rewrite !factorization_keys by assumption. rewrite Hprod. reflexivity.
Qed.

(** X5. For n >= 1 the keys of the mapping returned by [prime_factors] are
    in strictly increasing order (the order in which [keys()] lists them). *)
Theorem prime_factors_ascending n :
  1 <= n ->
  exists fs, prime_factors n = Returns fs /\ StronglySorted Z.lt (dict_keys fs).
Proof.
  intros Hn. destruct (prime_factors_sorted n Hn) as (fs & Hpf & _ & _ & Hs).
  exists fs. split; assumption.
Qed.

Lemma prime_factors_ascending_witness :
  exists fs, prime_factors 5040 = Returns fs /\ StronglySorted Z.lt (dict_keys fs).
Proof. apply prime_factors_ascending. lia. Defined.

Lemma prime_2 : Z.prime 2.
Proof. apply is_prime_iff. reflexivity. Qed.

Lemma prime_3 : Z.prime 3.
Proof. apply is_prime_iff. reflexivity. Qed.

Lemma prime_5 : Z.prime 5.
Proof. apply is_prime_iff. reflexivity. Qed.

Lemma factorization_360 : factorization [(2, 3); (3, 2); (5, 1)].
Proof.
  split; [|split]; cbn [dict_keys dict_values map fst snd].
  - repeat constructor; cbn [In]; lia.
  - repeat (apply Forall_cons || apply Forall_nil);
      auto using prime_2, prime_3, prime_5.
  - repeat (apply Forall_cons || apply Forall_nil); lia.
Qed.

Lemma ascending_360 : ascending_keys [(2, 3); (3, 2); (5, 1)].
Proof.
  unfold ascending_keys. cbn [dict_keys map fst]. repeat constructor.
Qed.

(** X6. Round trip: multiplying out a factorization whose primes are listed
    in increasing order and factoring the product gives the factorization
    back, entry for entry. *)
Theorem prime_factors_round_trip fs :
  factorization fs -> ascending_keys fs ->
  prime_factors (prod_pow fs) = Returns fs.
Proof. apply prime_factors_prod_pow. Qed.

Lemma prime_factors_round_trip_witness :
  prime_factors (prod_pow [(2, 3); (3, 2); (5, 1)])
  = Returns [(2, 3); (3, 2); (5, 1)].
Proof.
  apply prime_factors_round_trip; [apply factorization_360 | apply ascending_360].
Defined.

Lemma exact_multiplicity fs p e :
  factorization fs -> In (p, e) fs ->
  (p ^ e | prod_pow fs) /\ ~ (p ^ (e + 1) | prod_pow fs).
Proof.
  intros Hf Hin. apply in_split in Hin. destruct Hin as (l1 & l2 & ->).
  rewrite prod_pow_middle.
  apply factorization_prime_powers in Hf.
  apply (prime_powers_perm _ ((p, e) :: l1 ++ l2)) in Hf;
    [|symmetry; apply Permutation_middle].
  apply prime_powers_tail in Hf. destruct Hf as (Hp & He & Hnotin & Hpp).
  pose proof (prime_gt_1 p Hp) as Hp1.
  split; [apply Z.divide_factor_l|].
  intros Hdiv. apply (fresh_prime_not_divide p (l1 ++ l2) Hp Hpp Hnotin).
  rewrite Z.pow_add_r, Z.pow_1_r in Hdiv by lia.
  apply Z.mul_divide_cancel_l in Hdiv; [exact Hdiv|].
  apply Z.pow_nonzero; lia.
Qed.

(** X7. For n >= 1 the keys returned by [prime_factors] are exactly the
    primes dividing n, none is missed, and the exponent stored for a key p
    is its exact multiplicity: p ^ e divides n and p ^ (e + 1) does not. *)
Theorem prime_factors_multiplicity n :
  1 <= n ->
  exists fs,
    prime_factors n = Returns fs /\
    (forall p, In p (dict_keys fs) <-> Z.prime p /\ (p | n)) /\
    (forall p e, In (p, e) fs -> (p ^ e | n) /\ ~ (p ^ (e + 1) | n)).
Proof.
  intros Hn. destruct (prime_factors_returns n Hn) as (fs & Hpf & Hf & Hprod).
  exists fs. split; [exact Hpf|]. rewrite <- Hprod. split.
  - intros p. apply factorization_keys. exact Hf.
  - intros p e. apply exact_multiplicity. exact Hf.
Qed.

Lemma prime_factors_multiplicity_witness :
  exists fs,
    prime_factors 360 = Returns fs /\
    (forall p, In p (dict_keys fs) <-> Z.prime p /\ (p | 360)) /\
    (forall p e, In (p, e) fs -> (p ^ e | 360) /\ ~ (p ^ (e + 1) | 360)).
Proof. apply prime_factors_multiplicity. lia. Defined.

(** X8. A prime power p ^ k with k >= 1 (in particular a prime) is factored
    into the single entry [{p: k}]. *)
Theorem prime_factors_prime_power p k :
  Z.prime p -> 1 <= k -> prime_factors (p ^ k) = Returns [(p, k)].
Proof.
  intros Hp Hk.
  replace (p ^ k) with (prod_pow [(p, k)]) by (cbn [prod_pow]; ring).
  apply prime_factors_prod_pow.
  - split; [|split]; cbn [dict_keys dict_values map fst snd].
    + constructor; [intros [] | constructor].
    + constructor; [assumption | constructor].
    + constructor; [lia | constructor].
  - unfold ascending_keys. cbn [dict_keys map fst]. repeat constructor.
Qed.

Lemma prime_factors_prime_power_witness :
  prime_factors (3 ^ 4) = Returns [(3, 4)].
Proof. apply prime_factors_prime_power; [apply prime_3 | lia]. Defined.

(** ** The sequence counter: closed form and behaviour outside its contract *)

(** What [count_sequences] returns, from any factorization of [y]. *)
Lemma count_sequences_product n fs :
  1 <= n -> factorization fs -> (length fs <= 20)%nat ->
  count_sequences n (prod_pow fs) = Returns (exact_product n fs mod MOD).
Proof.
  intros Hn Hf Hlen. pose proof (factorization_pos fs Hf) as Hpos.
  rewrite count_sequences_exact; [| lia | lia |].
  - rewrite length_lcm_sequences by (lia || assumption). reflexivity.
  - rewrite num_distinct_primes_factorization, length_dict_keys by assumption. lia.
Qed.

Lemma exact_product_app n fs1 fs2 :
  exact_product n (fs1 ++ fs2) = exact_product n fs1 * exact_product n fs2.
Proof.
  induction fs1 as [|[p e] fs1 IH]; cbn [app exact_product].
  - destruct (exact_product n fs2); reflexivity.
  - rewrite IH. ring.
Qed.

Lemma factorization_360_unordered : factorization [(5, 1); (2, 3); (3, 2)].
Proof.
  split; [|split]; cbn [dict_keys dict_values map fst snd].
  - repeat constructor; cbn [In]; lia.
  - repeat (apply Forall_cons || apply Forall_nil);
      auto using prime_2, prime_3, prime_5.
  - repeat (apply Forall_cons || apply Forall_nil); lia.
Qed.

(** X9. Closed form, whatever the order of the primes: if y is the product
    of the prime powers of a factorization [fs] with at most 20 entries,
    listed in any order, then for n >= 1 [count_sequences n y] returns the
    product over the entries of (e + 1) ^ n - e ^ n, reduced modulo MOD. *)
Theorem count_sequences_closed_form n fs :
  1 <= n -> factorization fs -> (length fs <= 20)%nat ->
  count_sequences n (prod_pow fs) = Returns (exact_product n fs mod MOD).
Proof. apply count_sequences_product. Qed.

Lemma count_sequences_closed_form_witness :
  count_sequences 4 (prod_pow [(5, 1); (2, 3); (3, 2)])
  = Returns (exact_product 4 [(5, 1); (2, 3); (3, 2)] mod MOD).
Proof.
  apply count_sequences_closed_form; [lia | | cbn [length]; lia].
  apply factorization_360_unordered.
Defined.

(** X10. For a prime power y = p ^ k with k >= 1 (for k = 1, a prime) and
    n >= 1, [count_sequences] returns ((k + 1) ^ n - k ^ n) mod MOD; for a
    prime this is (2 ^ n - 1) mod MOD. *)
Theorem count_sequences_prime_power n p k :
  1 <= n -> Z.prime p -> 1 <= k ->
  count_sequences n (p ^ k) = Returns (((k + 1) ^ n - k ^ n) mod MOD).
Proof.
  intros Hn Hp Hk.
  replace (p ^ k) with (prod_pow [(p, k)]) by (cbn [prod_pow]; ring).
  rewrite count_sequences_product; [| assumption | | cbn [length]; lia].
  - cbn [exact_product]. rewrite Z.mul_1_r. reflexivity.
  - split; [|split]; cbn [dict_keys dict_values map fst snd].
    + constructor; [intros [] | constructor].
    + constructor; [assumption | constructor].
    + constructor; [lia | constructor].
Qed.

Lemma count_sequences_prime_power_witness :
  count_sequences 3 (3 ^ 2) = Returns (((2 + 1) ^ 3 - 2 ^ 3) mod MOD).
Proof. apply count_sequences_prime_power; [lia | apply prime_3 | lia]. Defined.

Lemma coprime_factorizations fs1 fs2 :
  factorization fs1 -> factorization fs2 ->
  Z.gcd (prod_pow fs1) (prod_pow fs2) = 1 ->
  factorization (fs1 ++ fs2).
Proof.
  intros Hf1 Hf2 Hgcd.
  pose proof Hf1 as (Hnd1 & Hk1 & Hv1). pose proof Hf2 as (Hnd2 & Hk2 & Hv2).
  split; [|split].
  - rewrite dict_keys_app. apply NoDup_app; try assumption.
    intros p Hp1 Hp2.
    apply (factorization_keys fs1 p Hf1) in Hp1.
    apply (factorization_keys fs2 p Hf2) in Hp2.
    destruct Hp1 as [Hp Hd1], Hp2 as [_ Hd2].
    pose proof (Z.gcd_greatest _ _ _ Hd1 Hd2) as Hd. rewrite Hgcd in Hd.
    pose proof (prime_gt_1 p Hp).
    apply Z.divide_1_r_nonneg in Hd; lia.
  - rewrite dict_keys_app. apply Forall_app. split; assumption.
  - unfold dict_values. rewrite map_app. apply Forall_app. split; assumption.
Qed.

(** X11. [count_sequences] is multiplicative: for n >= 1 and coprime
    y1, y2 >= 1 whose product stays within the cap on distinct primes, the
    result for y1 * y2 is the product of the results for y1 and y2,
    reduced modulo MOD. *)
Theorem count_sequences_multiplicative n y1 y2 :
  1 <= n -> 1 <= y1 -> 1 <= y2 -> Z.gcd y1 y2 = 1 ->
  num_distinct_primes (y1 * y2) <= 20 ->
  exists r1 r2,
    count_sequences n y1 = Returns r1 /\
    count_sequences n y2 = Returns r2 /\
    count_sequences n (y1 * y2) = Returns ((r1 * r2) mod MOD).
Proof.
  intros Hn Hy1 Hy2 Hgcd Hcap.
  destruct (prime_factors_returns y1 Hy1) as (fs1 & _ & Hf1 & Hp1).
  destruct (prime_factors_returns y2 Hy2) as (fs2 & _ & Hf2 & Hp2).
  rewrite <- Hp1, <- Hp2 in Hgcd.
  pose proof (coprime_factorizations fs1 fs2 Hf1 Hf2 Hgcd) as Hf.
  assert (Hprod : prod_pow (fs1 ++ fs2) = y1 * y2)
    by (rewrite prod_pow_app; congruence).
  assert (Hlen : (length (fs1 ++ fs2) <= 20)%nat).
  { rewrite <- Hprod, num_distinct_primes_factorization, length_dict_keys in Hcap
      by assumption. lia. }
  rewrite length_app in Hlen.
  exists (exact_product n fs1 mod MOD), (exact_product n fs2 mod MOD).
  rewrite <- Hprod. rewrite <- Hp1 at 1. rewrite <- Hp2 at 1.
  rewrite !count_sequences_product; try assumption; try lia.
  - rewrite exact_product_app, <- Z.mul_mod by (rewrite MOD_eq; lia).
    auto.
  - rewrite length_app. lia.
Qed.

Lemma count_sequences_multiplicative_witness :
  exists r1 r2,
    count_sequences 3 4 = Returns r1 /\
    count_sequences 3 9 = Returns r2 /\
    count_sequences 3 (4 * 9) = Returns ((r1 * r2) mod MOD).
Proof.
  apply count_sequences_multiplicative;
    [lia | lia | lia | reflexivity | vm_compute; discriminate].
Defined.

Lemma exact_product_one fs : exact_product 1 fs = 1.
Proof.
  induction fs as [|[p e] fs IH]; cbn [exact_product]; [reflexivity|].
  rewrite IH, !Z.pow_1_r. ring.
Qed.

(** X12. A sequence of length 1 with lcm y is the sequence (y) itself:
    [count_sequences 1 y] returns 1 for every y >= 1 within the cap on
    distinct primes. *)
Theorem count_sequences_length_one y :
  1 <= y -> num_distinct_primes y <= 20 -> count_sequences 1 y = Returns 1.
Proof.
  intros Hy Hcap.
  destruct (prime_factors_returns y Hy) as (fs & _ & Hf & Hprod).
  rewrite <- Hprod in Hcap |- *.
  rewrite num_distinct_primes_factorization, length_dict_keys in Hcap by assumption.
  rewrite count_sequences_product by (lia || assumption).
  rewrite exact_product_one. reflexivity.
Qed.

Lemma count_sequences_length_one_witness : count_sequences 1 360 = Returns 1.
Proof.
  apply count_sequences_length_one; [lia | vm_compute; discriminate].
Defined.

(** For y <= 0 the factorization is empty and no mask is visited. *)
Lemma count_sequences_nonpositive_target n y :
  y <= 0 -> count_sequences n y = Returns 1.
Proof.
  intros Hy. unfold count_sequences.
  destruct (Z.eqb_spec y 1) as [H1 | _]; [lia|].
  rewrite prime_factors_no_loop by lia.
  destruct (Z.gtb_spec y 1) as [H1 | _]; [lia|].
  cbn [bind dict_keys map length]. cbv zeta. change (Z.of_nat 0 >? 20) with false.
  cbv iota. unfold inclusion_exclusion. cbv zeta.
  cbn [dict_values map fold_left]. change (Z.shiftl 1 (Z.of_nat 0)) with 1.
  rewrite (range_nil 1 1) by lia.
  destruct (Z.lt_ge_cases 0 n) as [Hn | Hn].
  - rewrite power_mod_pos by (rewrite ?MOD_eq; lia).
    rewrite Z.pow_1_l by lia. reflexivity.
  - rewrite power_mod_nonpos by (rewrite ?MOD_eq; lia). reflexivity.
Qed.

(** X13. A target y <= 0 is not rejected: its factorization is empty, so
    [count_sequences] returns 1 for every n, although no sequence of
    positive integers has a non-positive lcm. *)
Theorem count_sequences_nonpositive_y n y :
  y <= 0 ->
  count_sequences n y = Returns 1 /\
  (forall l, ~ lcm_sequence n y l).
Proof.
  intros Hy. split; [apply count_sequences_nonpositive_target; assumption|].
  intros l (_ & Hpos & Hlcm). pose proof (lcm_list_pos l Hpos). lia.
Qed.

Lemma count_sequences_nonpositive_y_witness :
  count_sequences 5 0 = Returns 1 /\ (forall l, ~ lcm_sequence 5 0 l).
Proof. apply count_sequences_nonpositive_y. lia. Defined.

Lemma for_each_ext {St A : Type} (xs : list A) (body body' : A -> St -> outcome St) :
  (forall x s, body x s = body' x s) ->
  forall s, for_each xs body s = for_each xs body' s.
Proof.
  intros Hext. induction xs as [|x xs IH]; intros s; cbn [for_each]; [reflexivity|].
  rewrite Hext. destruct (body' x s); cbn [bind]; auto.
Qed.

(** A length that is not positive is treated like length 0. *)
Lemma inclusion_exclusion_nonpos n factors primes num_primes :
  n <= 0 ->
  inclusion_exclusion n factors primes num_primes
  = inclusion_exclusion 0 factors primes num_primes.
Proof.
  intros Hn. assert (HM : MOD <> 0) by (rewrite MOD_eq; lia).
  unfold inclusion_exclusion. cbv zeta.
  rewrite !power_mod_nonpos by (assumption || lia). cbn [bind].
  apply for_each_ext. intros mask result. unfold mask_body. cbv zeta.
  destruct (for_each _ _ _); cbn [bind]; [|reflexivity | reflexivity].
  rewrite !power_mod_nonpos by (assumption || lia). reflexivity.
Qed.

Lemma count_sequences_nonpos_length n y :
  n <= 0 -> 1 <= y -> count_sequences n y = Returns 0.
Proof.
  intros Hn Hy.
  destruct (count_sequences_unfold n y Hy) as (fs & Hpf & Hf & Hprod & Hcs).
  rewrite Hcs. destruct (Z.eqb_spec y 1) as [_ | Hne].
  - destruct (Z.geb_spec n 1); [lia | reflexivity].
  - destruct (Z.of_nat (length (dict_keys fs)) >? 20); [reflexivity|].
    rewrite inclusion_exclusion_nonpos by assumption.
    rewrite inclusion_exclusion_returns by (lia || apply Hf).
    destruct fs as [|[p e] fs]; [cbn in Hprod; lia|].
    cbn [dict_values map snd ie_product]. rewrite !Z.pow_0_r. reflexivity.
Qed.

(** X14. A length n <= 0, negative lengths included, is not rejected
    either: every power term is 1 and [count_sequences n y] returns 0 for
    every y >= 1. *)
Theorem count_sequences_nonpositive_n n y :
  n <= 0 -> 1 <= y -> count_sequences n y = Returns 0.
Proof. apply count_sequences_nonpos_length. Qed.

Lemma count_sequences_nonpositive_n_witness : count_sequences (-3) 12 = Returns 0.
Proof. apply count_sequences_nonpositive_n; lia. Defined.

Lemma count_sequences_residue n y :
  exists r, count_sequences n y = Returns r /\ 0 <= r < MOD.
Proof.
  assert (HM : 0 < MOD) by (rewrite MOD_eq; lia).
  destruct (Z.le_gt_cases y 0) as [Hy | Hy].
  - exists 1. split; [apply count_sequences_nonpositive_target; assumption|].
    rewrite MOD_eq. lia.
  - destruct (Z.le_gt_cases n 0) as [Hn | Hn].
    + exists 0. split; [apply count_sequences_nonpos_length; lia | lia].
    + destruct (count_sequences_unfold n y ltac:(lia)) as (fs & Hpf & Hf & Hprod & Hcs).
      rewrite Hcs. destruct (y =? 1).
      * destruct (n >=? 1); eexists; (split; [reflexivity | rewrite MOD_eq; lia]).
      * destruct (Z.of_nat (length (dict_keys fs)) >? 20).
        -- eexists; (split; [reflexivity | lia]).
        -- rewrite inclusion_exclusion_returns by (lia || apply Hf).
           eexists. split; [reflexivity|]. apply Z.mod_pos_bound. exact HM.
Qed.

(** X15. [count_sequences] never raises and always terminates: for all
    integers n and y, in or out of the contract, no [KeyError],
    [IndexError] or [ZeroDivisionError] escapes, and the value returned is
    in [0, MOD - 1]. *)
Theorem count_sequences_never_raises n y :
  exists r, count_sequences n y = Returns r /\ 0 <= r < MOD.
Proof. apply count_sequences_residue. Qed.

Lemma lcm_list_repeat y k : 0 < y -> lcm_list (repeat y (S k)) = y.
Proof.
  intros Hy. induction k as [|k IH].
  - cbn [repeat lcm_list]. apply Z.lcm_1_r_nonneg. lia.
  - change (repeat y (S (S k))) with (y :: repeat y (S k)).
    cbn [lcm_list]. rewrite IH. apply Z.lcm_diag_nonneg. lia.
Qed.

(** X16. Above the cap the 0 returned is a stand-in, not a count: for
    n >= 1 and y >= 1 with more than 20 distinct primes [count_sequences]
    returns 0, although sequences of length n with lcm y exist (the
    constant sequence y, ..., y is one). *)
Theorem count_sequences_cap_undercounts n y :
  1 <= n -> 1 <= y -> 20 < num_distinct_primes y ->
  count_sequences n y = Returns 0 /\ exists l, lcm_sequence n y l.
Proof.
  intros Hn Hy Hcap. split.
  - destruct (count_sequences_unfold n y Hy) as (fs & Hpf & Hf & Hprod & Hcs).
    rewrite <- Hprod, num_distinct_primes_factorization in Hcap by assumption.
    rewrite Hcs. destruct (Z.eqb_spec y 1) as [-> | _].
    + rewrite prime_factors_one in Hpf. injection Hpf as <-. cbn in Hcap. lia.
    + destruct (Z.gtb_spec (Z.of_nat (length (dict_keys fs))) 20); [reflexivity | lia].
  - exists (repeat y (Z.to_nat n)). unfold lcm_sequence.
    rewrite repeat_length. split; [lia|]. split.
    + apply Forall_forall. intros a Ha. apply repeat_spec in Ha. lia.
    + replace (Z.to_nat n) with (S (Z.to_nat (n - 1))) by lia.
      apply lcm_list_repeat. lia.
Qed.

Lemma count_sequences_cap_undercounts_witness :
  count_sequences 3 (prod_pow first_21_primes) = Returns 0 /\
  exists l, lcm_sequence 3 (prod_pow first_21_primes) l.
Proof.
  apply count_sequences_cap_undercounts.
  - lia.
  - vm_compute. discriminate.
  - rewrite num_distinct_primes_factorization by apply factorization_first_21_primes.
    vm_compute. reflexivity.
Defined.

(** ** The batch driver *)

Lemma few_primes_within_bounds y : 1 <= y <= 10 ^ 9 -> num_distinct_primes y <= 20.
Proof.
  intros Hy.
  destruct (Z.le_gt_cases (num_distinct_primes y) 9) as [H | H]; [lia|].
  pose proof (ten_primes_lower_bound y ltac:(lia) ltac:(lia)).
  change (10 ^ 9) with 1000000000 in Hy. lia.
Qed.

Lemma answer_residue c : 0 <= answer c < MOD.
Proof.
  assert (HM : 0 < MOD) by (rewrite MOD_eq; lia).
  destruct c as [n y]. unfold answer.
  destruct (_ && _); [apply Z.mod_pos_bound; exact HM | lia].
Qed.

Section DriverProperties.

Variable text : Type.
Variable py_strip : text -> text.
Variable py_split : text -> list text.
Variable py_int : text -> option Z.

Lemma main_loop_done stdin remaining stdout :
  remaining <= 0 ->
  main_loop py_strip py_split py_int stdin remaining stdout = (stdout, None).
Proof.
  intros Hr. assert (H : (remaining <=? 0) = true) by (apply Z.leb_le; lia).
  destruct stdin; cbn [main_loop]; rewrite H; reflexivity.
Qed.

(** One test case: the driver prints its answer and goes on. *)
Lemma main_loop_case line c stdin remaining stdout :
  reads_case py_strip py_split py_int line c -> 0 < remaining ->
  main_loop py_strip py_split py_int (line :: stdin) remaining stdout
  = main_loop py_strip py_split py_int stdin (remaining - 1) (stdout ++ [answer c]).
Proof.
  intros Hline Hr.
  assert (H : (remaining <=? 0) = false) by (apply Z.leb_gt; lia).
  destruct c as [n y]. unfold reads_case in Hline. cbn [fst snd] in Hline.
  cbn [main_loop answer]. rewrite H, Hline.
  destruct ((1 <=? n) && (n <=? 10 ^ 5) && ((1 <=? y) && (y <=? 10 ^ 9))) eqn:Hb;
    cbn [negb]; [|reflexivity].
  apply andb_true_iff in Hb. destruct Hb as [Hn Hy].
  apply andb_true_iff in Hn, Hy. destruct Hn as [Hn1 Hn2], Hy as [Hy1 Hy2].
  apply Z.leb_le in Hn1, Hn2, Hy1, Hy2.
  rewrite count_sequences_exact;
    [reflexivity | assumption | assumption | apply few_primes_within_bounds; lia].
Qed.

Lemma main_loop_cases lines cases :
  Forall2 (reads_case py_strip py_split py_int) lines cases ->
  forall stdin remaining stdout,
    (length cases <= Z.to_nat remaining)%nat ->
    main_loop py_strip py_split py_int (lines ++ stdin) remaining stdout
    = main_loop py_strip py_split py_int stdin
                (remaining - Z.of_nat (length cases))
                (stdout ++ map answer cases).
Proof.
  induction 1 as [|line c lines cases Hline _ IH]; intros stdin remaining stdout Hlen.
  - cbn [map app length]. rewrite app_nil_r, Z.sub_0_r. reflexivity.
  - cbn [map app length] in Hlen |- *.
    rewrite (main_loop_case line c) by (assumption || lia). rewrite IH by lia.
    rewrite <- app_assoc. cbn [app]. f_equal. lia.
Qed.

(** X17. End to end, whatever [strip], [split] and [int] do: when [int]
    accepts the first line as T and max(T, 0) lines follow that each split
    into two tokens accepted by [int] as n and y, [main] ends normally
    having printed one line per test case, T in all (T itself is not
    checked against any bound, and further lines are ignored): 0 for a pair
    outside 1 <= n <= 10^5, 1 <= y <= 10^9, and otherwise the number of
    sequences of n positive integers with lcm y, modulo MOD -- within these
    bounds the cap on distinct primes never interferes.  Every printed
    value is in [0, MOD - 1]. *)
Theorem main_prints_answers first T lines cases rest :
  py_int (py_strip first) = Some T ->
  Forall2 (reads_case py_strip py_split py_int) lines cases ->
  length cases = Z.to_nat T ->
  main py_strip py_split py_int (first :: lines ++ rest)
  = (map answer cases, None) /\
  Forall (fun v => 0 <= v < MOD) (map answer cases).
Proof.
  intros HT Hlines Hlen. split.
  - cbn [main]. rewrite HT, (main_loop_cases lines cases Hlines) by lia.
    rewrite main_loop_done by lia. reflexivity.
  - apply Forall_forall. intros v Hv. apply in_map_iff in Hv.
    destruct Hv as (c & <- & _). apply answer_residue.
Qed.

(** X18. Truncated input: when [int] accepts the first line as T and fewer
    than T lines follow, each of them a well-formed test case, [main]
    prints their answers and then stops with [EOFError]. *)
Theorem main_truncated_input first T lines cases :
  py_int (py_strip first) = Some T ->
  Forall2 (reads_case py_strip py_split py_int) lines cases ->
  (length cases < Z.to_nat T)%nat ->
  main py_strip py_split py_int (first :: lines)
  = (map answer cases, Some EOFError).
Proof.
  intros HT Hlines Hlen. cbn [main]. rewrite HT.
  rewrite <- (app_nil_r lines).
  rewrite (main_loop_cases lines cases Hlines) by lia. cbn [main_loop].
  destruct (Z.leb_spec (T - Z.of_nat (length cases)) 0); [lia | reflexivity].
Qed.

(** X19. A line that is reached as a test case but does not split into
    exactly two tokens accepted by [int] stops [main] with [ValueError];
    the answers of the well-formed lines before it have been printed,
    nothing after them. *)
Theorem main_malformed_line first T lines cases bad rest :
  py_int (py_strip first) = Some T ->
  Forall2 (reads_case py_strip py_split py_int) lines cases ->
  (length cases < Z.to_nat T)%nat ->
  (forall n y, map py_int (py_split (py_strip bad)) <> [Some n; Some y]) ->
  main py_strip py_split py_int (first :: lines ++ bad :: rest)
  = (map answer cases, Some ValueError).
Proof.
  intros HT Hlines Hlen Hbad. cbn [main]. rewrite HT.
  rewrite (main_loop_cases lines cases Hlines) by lia. cbn [main_loop].
  destruct (Z.leb_spec (T - Z.of_nat (length cases)) 0); [lia|].
  destruct (map py_int (py_split (py_strip bad)))
    as [|[n|] [|[y|] [|c l]]] eqn:Hmap; try reflexivity.
  exfalso. apply (Hbad n y). reflexivity.
Qed.

End DriverProperties.

Lemma main_prints_answers_witness :
  main (fun line => line) tokens_of token_value
       ([2] :: [[2; 6]; [3; 9]] ++ [[7; 7]])
  = (map answer [(2, 6); (3, 9)], None) /\
  Forall (fun v => 0 <= v < MOD) (map answer [(2, 6); (3, 9)]).
Proof.
  apply (main_prints_answers (list Z) (fun line => line) tokens_of token_value [2] 2);
    [reflexivity | repeat constructor | reflexivity].
Defined.

Example main_docstring_example :
  main (fun line => line) tokens_of token_value [[2]; [2; 6]; [3; 9]]
  = ([9; 19], None).
Proof. vm_compute. reflexivity. Qed.

Example main_out_of_bounds :
  main (fun line => line) tokens_of token_value
       [[3]; [0; 6]; [2; 1000000001]; [100001; 2]]
  = ([0; 0; 0], None).
Proof. vm_compute. reflexivity. Qed.

Example main_unreadable_first_line :
  main (fun line => line) tokens_of token_value [[1; 2]; [2; 6]]
  = ([], Some ValueError).
Proof. reflexivity. Qed.

Lemma main_truncated_input_witness :
  main (fun line => line) tokens_of token_value ([3] :: [[2; 6]; [3; 9]])
  = (map answer [(2, 6); (3, 9)], Some EOFError).
Proof.
  apply (main_truncated_input (list Z) (fun line => line) tokens_of token_value [3] 3);
    [reflexivity | repeat constructor | cbn; lia].
Defined.

Lemma main_malformed_line_witness :
  main (fun line => line) tokens_of token_value
       ([3] :: [[2; 6]] ++ [4; 5; 6] :: [[3; 9]])
  = (map answer [(2, 6)], Some ValueError).
Proof.
  apply (main_malformed_line (list Z) (fun line => line) tokens_of token_value [3] 3);
    [reflexivity | repeat constructor | cbn; lia | intros n y; discriminate].
Defined.
